(** * Distributed mutual exclusion (second Ricart-Agrawala algorithm)

    A shallow embedding of [modules/Server/Lock/distributedLock.py]:
    the [DistributedLock] object, its private helpers and its public
    methods, followed by the properties the specification states
    about them.

    The Python object is a record; every method is a computation in a
    small state-and-exception monad over a [World] holding the lock
    object, the peer registry it shares its monitor with, and a
    chronological trace of the monitor operations, outbound calls and
    evictions the method performed.  Python exceptions are outcomes of
    the monad: the state reached when the exception was raised is kept,
    as it is in Python.  The [print] calls of the source write to the
    console only and are left out. *)

From Stdlib Require Import ZArith List String Bool Lia Sorted.
Import ListNotations.
Local Open Scope Z_scope.

Set Implicit Arguments.
Set Warnings "-register-all".

(** ** Python values *)

(** Values that reach the lock: what [json.loads] builds from a request
    frame (null, integers, strings, arrays, objects).  A tuple produced
    locally by [dict.items()] is an array once it has crossed the wire and
    behaves as one for [dict(...)], so both are [VList].  Floating point
    numbers and booleans are left out of the model. *)
Inductive pyval : Type :=
| VNone
| VInt (z : Z)
| VStr (s : string)
| VList (l : list pyval)
| VObj (o : list (string * pyval)).

(** Hashable values, the ones that can be keys of a Python dict. *)
Inductive pykey : Type :=
| KNone
| KInt (z : Z)
| KStr (s : string).

Definition key_eqb (a b : pykey) : bool :=
  match a, b with
  | KNone, KNone => true
  | KInt x, KInt y => x =? y
  | KStr s, KStr t => String.eqb s t
  | _, _ => false
  end.

Definition val_of_key (k : pykey) : pyval :=
  match k with
  | KNone => VNone
  | KInt z => VInt z
  | KStr s => VStr s
  end.

(** Exceptions, all of them subclasses of Python's [Exception].
    [TransportError] stands for whatever an outbound remote call raises
    (socket errors, [CommunicationError], a re-raised remote error). *)
Inductive exn : Type :=
| KeyError
| TypeError
| ValueError
| AttributeError
| RuntimeError
| TransportError.

(** [hash(v)]: lists and dicts are unhashable. *)
Definition as_key (v : pyval) : exn + pykey :=
  match v with
  | VNone => inr KNone
  | VInt z => inr (KInt z)
  | VStr s => inr (KStr s)
  | VList _ => inl TypeError
  | VObj _ => inl TypeError
  end.

(** ** Python dicts

    A dict is the list of its items in insertion order; keys are
    distinct.  Assigning to an existing key keeps its position,
    assigning to a new key appends, as in Python 3.7 and later. *)
Module Dict.

Definition t (V : Type) : Type := list (pykey * V).

Definition empty {V} : t V := [].

Fixpoint get {V} (k : pykey) (d : t V) : option V :=
  match d with
  | [] => None
  | (k', v) :: r => if key_eqb k k' then Some v else get k r
  end.

Fixpoint set {V} (k : pykey) (v : V) (d : t V) : t V :=
  match d with
  | [] => [(k, v)]
  | (k', v') :: r =>
      if key_eqb k k' then (k', v) :: r else (k', v') :: set k v r
  end.

Definition remove {V} (k : pykey) (d : t V) : t V :=
  filter (fun kv => negb (key_eqb k (fst kv))) d.

Definition mem {V} (k : pykey) (d : t V) : bool :=
  match get k d with Some _ => true | None => false end.

Definition keys {V} (d : t V) : list pykey := map fst d.

Definition items {V} (d : t V) : list (pykey * V) := d.

(** [dict(pairs)]: later entries overwrite earlier ones. *)
Definition of_items {V} (l : list (pykey * V)) : t V :=
  fold_left (fun d kv => set (fst kv) (snd kv) d) l empty.

(** The representation invariant of a dict. *)
Definition wf {V} (d : t V) : Prop := NoDup (keys d).

End Dict.

(** ** The lock object and its world *)

Inductive token_state : Type :=
| NO_TOKEN
| TOKEN_PRESENT
| TOKEN_HELD.

Definition state_eqb (a b : token_state) : bool :=
  match a, b with
  | NO_TOKEN, NO_TOKEN => true
  | TOKEN_PRESENT, TOKEN_PRESENT => true
  | TOKEN_HELD, TOKEN_HELD => true
  | _, _ => false
  end.

(** The attributes of [DistributedLock].  [token] is [None] until
    [initialize] assigns a dict to it. *)
Record DistributedLock : Type := mkLock {
  owner_id : Z;                      (* self.owner.id *)
  time : Z;                          (* self.time *)
  token : option (Dict.t pyval);       (* self.token *)
  request : Dict.t Z;                  (* self.request *)
  state : token_state                (* self.state *)
}.

(** The methods of remote peers the lock calls. *)
Inductive remote_call : Type :=
| CallRequestToken (t : Z) (pid : Z)
| CallObtainToken (wire : pyval).

(** What a method did, in the order it did it. *)
Inductive event : Type :=
| EAcquire                           (* peer_list.lock.acquire() *)
| ERelease                           (* peer_list.lock.release() *)
| EWait                              (* peer_list.lock.wait() *)
| ENotifyAll                         (* peer_list.lock.notify_all() *)
| ECall (p : Z) (c : remote_call) (ok : bool)
| EDelRequest (p : Z)                (* del self.request[p] *)
| EDelToken (p : Z)                  (* del self.token[p] *)
| EUnregister (p : Z).               (* peer_list.unregister_peer(p) *)

(** Modelled from the spec: the peer registry [peer_list] (peerList.py is
    not part of the sources).  The spec gives it [get_peers()], an ordered
    sequence of peer ids without the own id, [peer(pid)], the handle for
    outbound calls, [unregister_peer(pid)], which drops [pid] from the
    membership, and the monitor [lock] with [acquire], [release], [wait]
    and [notify_all].  The monitor is the one of the calling thread's
    point of view: [lock_depth] counts how many times this thread holds
    it.  It is re-entrant, and [release], [wait] and [notify_all] by a
    thread that does not hold it raise [RuntimeError], as for Python's
    [threading.Condition], whose interface the source calls. *)
Record PeerList : Type := mkPeerList {
  peers : list Z;
  lock_depth : nat
}.

Record World : Type := mkWorld {
  self : DistributedLock;
  peer_list : PeerList;
  trace : list event
}.

(** ** The monad of methods *)

Inductive outcome (A : Type) : Type :=
| Ret (a : A)            (* normal completion *)
| Raise (e : exn)        (* an exception leaves the block *)
| Blocked.               (* the thread is suspended in lock.wait() *)
Arguments Ret {A} a.
Arguments Raise {A} e.
Arguments Blocked {A}.

Definition M (A : Type) : Type := World -> outcome A * World.

Definition ret {A} (a : A) : M A := fun w => (Ret a, w).

Definition raise {A} (e : exn) : M A := fun w => (Raise e, w).

Definition bind {A B} (m : M A) (k : A -> M B) : M B :=
  fun w =>
    match m w with
    | (Ret a, w') => k a w'
    | (Raise e, w') => (Raise e, w')
    | (Blocked, w') => (Blocked, w')
    end.

Declare Scope py_scope.
Delimit Scope py_scope with py.
Notation "x <- m ;; k" := (bind m (fun x => k))
  (at level 61, m at next level, right associativity) : py_scope.
Notation "m ;; k" := (bind m (fun _ => k))
  (at level 61, right associativity) : py_scope.
Local Open Scope py_scope.

(** [try: body  except Exception as e: handler e] *)
Definition try_except {A} (body : M A) (handler : exn -> M A) : M A :=
  fun w =>
    match body w with
    | (Raise e, w') => handler e w'
    | r => r
    end.

(** [try: body  finally: final].  An exception of [final] replaces the
    outcome of [body]; a suspended thread has not reached [final]. *)
Definition try_finally {A} (body : M A) (final : M unit) : M A :=
  fun w =>
    match body w with
    | (Blocked, w') => (Blocked, w')
    | (r, w') =>
        match final w' with
        | (Ret _, w'') => (r, w'')
        | (Raise e, w'') => (Raise e, w'')
        | (Blocked, w'') => (Blocked, w'')
        end
    end.

(** Reading and updating the attributes of [self]. *)
Definition gets {A} (f : DistributedLock -> A) : M A :=
  fun w => (Ret (f (self w)), w).

(** A statement that either updates [self] or raises before changing
    anything. *)
Definition update (f : DistributedLock -> exn + DistributedLock) : M unit :=
  fun w =>
    match f (self w) with
    | inr l' => (Ret tt, mkWorld l' (peer_list w) (trace w))
    | inl e => (Raise e, w)
    end.

Definition modify (f : DistributedLock -> DistributedLock) : M unit :=
  update (fun l => inr (f l)).

Definition emit (e : event) : M unit :=
  fun w => (Ret tt, mkWorld (self w) (peer_list w) (trace w ++ [e])).

Definition set_time (t : Z) (l : DistributedLock) : DistributedLock :=
  mkLock (owner_id l) t (token l) (request l) (state l).

Definition set_token (tk : option (Dict.t pyval)) (l : DistributedLock)
  : DistributedLock :=
  mkLock (owner_id l) (time l) tk (request l) (state l).

Definition set_request (rq : Dict.t Z) (l : DistributedLock)
  : DistributedLock :=
  mkLock (owner_id l) (time l) (token l) rq (state l).

Definition set_state (s : token_state) (l : DistributedLock)
  : DistributedLock :=
  mkLock (owner_id l) (time l) (token l) (request l) s.

(** [self.time += 1] *)
Definition tick : M unit :=
  modify (fun l => set_time (time l + 1) l).

(** [self.state = s] *)
Definition assign_state (s : token_state) : M unit :=
  modify (set_state s).

(** [self.request[k] = v] *)
Definition request_setitem (k : Z) (v : Z) : M unit :=
  modify (fun l => set_request (Dict.set (KInt k) v (request l)) l).

(** [self.request[k]], [KeyError] when absent. *)
Definition request_getitem (k : Z) : M Z :=
  rq <- gets request ;;
  match Dict.get (KInt k) rq with
  | Some v => ret v
  | None => raise KeyError
  end.

(** [del self.request[k]], [KeyError] when absent. *)
Definition request_delitem (k : Z) : M unit :=
  update (fun l =>
            if Dict.mem (KInt k) (request l)
            then inr (set_request (Dict.remove (KInt k) (request l)) l)
            else inl KeyError) ;;
  emit (EDelRequest k).

(** [self.token[k] = v]; [None] does not support item assignment. *)
Definition token_setitem (k : pykey) (v : pyval) : M unit :=
  update (fun l =>
            match token l with
            | Some tk => inr (set_token (Some (Dict.set k v tk)) l)
            | None => inl TypeError
            end).

(** [self.token[k]]; [None] is not subscriptable. *)
Definition token_getitem (k : Z) : M pyval :=
  t <- gets token ;;
  match t with
  | Some tk =>
      match Dict.get (KInt k) tk with
      | Some v => ret v
      | None => raise KeyError
      end
  | None => raise TypeError
  end.

(** [del self.token[k]] *)
Definition token_delitem (k : Z) : M unit :=
  update (fun l =>
            match token l with
            | Some tk =>
                if Dict.mem (KInt k) tk
                then inr (set_token (Some (Dict.remove (KInt k) tk)) l)
                else inl KeyError
            | None => inl TypeError
            end) ;;
  emit (EDelToken k).

Definition set_depth (n : nat) : M unit :=
  fun w => (Ret tt, mkWorld (self w)
                            (mkPeerList (peers (peer_list w)) n) (trace w)).

Definition get_depth : M nat :=
  fun w => (Ret (lock_depth (peer_list w)), w).

(** Modelled from the spec: [peer_list.lock.acquire()].  The monitor is
    re-entrant; seen from the running thread, taking it adds one to the
    depth at which the thread holds it. *)
Definition lock_acquire : M unit :=
  n <- get_depth ;; set_depth (S n) ;; emit EAcquire.

(** Modelled from the spec: [peer_list.lock.release()].  The spec is
    silent on a release by a thread that does not hold the monitor; the
    source calls [acquire], [release], [wait] and [notify_all], the
    interface of Python's [threading.Condition], where such a release
    raises [RuntimeError]. *)
Definition lock_release : M unit :=
  n <- get_depth ;;
  match n with
  | O => raise RuntimeError
  | S n' => set_depth n' ;; emit ERelease
  end.

(** Modelled from the spec: [peer_list.lock.notify_all()], for a thread
    that holds the monitor. *)
Definition lock_notify_all : M unit :=
  n <- get_depth ;;
  match n with
  | O => raise RuntimeError
  | S _ => emit ENotifyAll
  end.

(** Modelled from the spec: [peer_list.lock.wait()].  It suspends the
    thread until another thread notifies; the rest of the method runs
    when the thread is resumed. *)
Definition lock_wait : M unit :=
  n <- get_depth ;;
  match n with
  | O => raise RuntimeError
  | S _ => emit EWait ;; (fun w => (Blocked, w))
  end.

(** Modelled from the spec: [peer_list.get_peers()], the ordered
    sequence of the registered peer ids, without the own id. *)
Definition get_peers : M (list Z) :=
  fun w => (Ret (peers (peer_list w)), w).

Definition Z_mem (p : Z) (l : list Z) : bool := existsb (Z.eqb p) l.

(** Modelled from the spec: [peer_list.peer(p)], the handle for
    outbound calls to a registered peer. *)
Definition peer (p : Z) : M Z :=
  ps <- get_peers ;;
  if Z_mem p ps then ret p else raise KeyError.

(** Modelled from the spec: [peer_list.unregister_peer(p)], which drops
    [p] from the membership. *)
Definition unregister_in_registry (p : Z) : M unit :=
  (fun w => (Ret tt,
             mkWorld (self w)
                     (mkPeerList (filter (fun q => negb (q =? p))
                                         (peers (peer_list w)))
                                 (lock_depth (peer_list w)))
                     (trace w))) ;;
  emit (EUnregister p).

Definition lift {A} (r : exn + A) : M A :=
  match r with
  | inl e => raise e
  | inr a => ret a
  end.

(** ** Private helpers *)

(** [list(v)]: the elements of a value used as a sequence.  A string
    yields its characters, an object its keys. *)
Definition obj_dict (o : list (string * pyval)) : Dict.t pyval :=
  Dict.of_items (map (fun kv => (KStr (fst kv), snd kv)) o).

Definition py_iter (v : pyval) : exn + list pyval :=
  match v with
  | VList l => inr l
  | VStr s =>
      inr (map (fun c => VStr (String c EmptyString)) (list_ascii_of_string s))
  | VObj o => inr (map val_of_key (Dict.keys (obj_dict o)))
  | VNone => inl TypeError
  | VInt _ => inl TypeError
  end.

(** [dict(v)] for a sequence [v]: every element must itself be a
    sequence of length two with a hashable first component. *)
Fixpoint dict_update (elems : list pyval) (d : Dict.t pyval)
  : exn + Dict.t pyval :=
  match elems with
  | [] => inr d
  | e :: rest =>
      match py_iter e with
      | inl x => inl x
      | inr [k; v] =>
          match as_key k with
          | inl x => inl x
          | inr key => dict_update rest (Dict.set key v d)
          end
      | inr _ => inl ValueError
      end
  end.

Definition py_dict (v : pyval) : exn + Dict.t pyval :=
  match v with
  | VObj o => inr (obj_dict o)
  | _ =>
      match py_iter v with
      | inl x => inl x
      | inr elems => dict_update elems Dict.empty
      end
  end.

(** [v + 1] *)
Definition py_succ (v : pyval) : exn + Z :=
  match v with
  | VInt z => inr (z + 1)
  | _ => inl TypeError
  end.

(** [r > v] for an integer [r] *)
Definition py_gt (r : Z) (v : pyval) : exn + bool :=
  match v with
  | VInt t => inr (t <? r)
  | _ => inl TypeError
  end.

(** [_prepare(token)]: [list(token.items())] *)
Definition _prepare (tk : option (Dict.t pyval)) : exn + pyval :=
  match tk with
  | Some d =>
      inr (VList (map (fun kv => VList [val_of_key (fst kv); snd kv])
                      (Dict.items d)))
  | None => inl AttributeError
  end.

(** [_unprepare(token)]: [dict(token)] *)
Definition _unprepare (wire : pyval) : exn + Dict.t pyval := py_dict wire.

(** [get_order()]: the loop appends to [higher] and [lower]. *)
Fixpoint get_order_loop (own : Z) (ps higher lower : list Z)
  : list Z * list Z :=
  match ps with
  | [] => (higher, lower)
  | peer_id :: rest =>
      if peer_id <? own
      then get_order_loop own rest higher (lower ++ [peer_id])
      else if own <? peer_id
           then get_order_loop own rest (higher ++ [peer_id]) lower
           else get_order_loop own rest higher lower
  end.

Definition order_of (own : Z) (ps : list Z) : list Z :=
  let (higher, lower) := get_order_loop own ps [] [] in
  higher ++ lower.

Definition get_order : M (list Z) :=
  ps <- get_peers ;;
  own <- gets owner_id ;;
  ret (order_of own ps).

(** ** Public methods *)

(** [__init__(owner, peer_list)] *)
Definition new_lock (own : Z) : DistributedLock :=
  mkLock own 0 None Dict.empty NO_TOKEN.

Definition new_world (own : Z) (members : list Z) : World :=
  mkWorld (new_lock own) (mkPeerList members 0) [].

Fixpoint initialize_loop (ps : list Z) : M unit :=
  match ps with
  | [] => ret tt
  | p :: rest =>
      request_setitem p 0 ;;
      token_setitem (KInt p) (VInt 0) ;;
      initialize_loop rest
  end.

Definition initialize : M unit :=
  lock_acquire ;;
  try_finally
    (try_except
       (own <- gets owner_id ;;
        request_setitem own 0 ;;
        modify (set_token (Some [(KInt own, VInt 0)])) ;;
        ps <- get_peers ;;
        match ps with
        | _ :: _ => initialize_loop ps
        | [] => assign_state TOKEN_PRESENT
        end)
       (fun _ => ret tt))
    lock_release.

Definition register_peer (pid : Z) : M unit :=
  lock_acquire ;;
  tick ;;
  request_setitem pid 0 ;;
  token_setitem (KInt pid) (VInt 0) ;;
  lock_release.

Definition unregister_peer (pid : Z) : M unit :=
  lock_acquire ;;
  tick ;;
  request_delitem pid ;;
  token_delitem pid ;;
  lock_release.

Definition display_status : M unit :=
  lock_acquire ;;
  try_finally (ret tt) lock_release.

Fixpoint obtain_loop (items : list (pykey * pyval)) : M unit :=
  match items with
  | [] => ret tt
  | (peer_id, v) :: rest =>
      token_setitem peer_id v ;;
      n <- lift (py_succ v) ;;
      modify (fun l => set_time (Z.max (time l) n) l) ;;
      obtain_loop rest
  end.

Definition obtain_token (wire : pyval) : M unit :=
  lock_acquire ;;
  tick ;;
  try_finally
    (try_except
       (msg <- lift (_unprepare wire) ;;
        obtain_loop (Dict.items msg))
       (fun _ => ret tt))
    (assign_state TOKEN_PRESENT ;;
     lock_notify_all ;;
     lock_release).

(** The methods below call remote peers.  [up p] tells whether a call
    to peer [p] completes; when it does not, the call raises.  What the
    remote peer does to this lock while the call is in flight is another
    method run of its own. *)
Section Outbound.

Variable up : Z -> bool.

Definition call (p : Z) (c : remote_call) : M unit :=
  emit (ECall p c (up p)) ;;
  if up p then ret tt else raise TransportError.

(** The body of [for peer_id in order] in [release]; [break] ends the
    recursion, [continue] goes on with the rest. *)
Fixpoint release_loop (order : list Z) : M unit :=
  match order with
  | [] => ret tt
  | peer_id :: rest =>
      p <- peer peer_id ;;
      r <- request_getitem peer_id ;;
      t <- token_getitem peer_id ;;
      claimed <- lift (py_gt r t) ;;
      if (claimed : bool)
      then
        sent <- try_except
                  (lock_release ;;
                   tk <- gets token ;;
                   wire <- lift (_prepare tk) ;;
                   call p (CallObtainToken wire) ;;
                   lock_acquire ;;
                   assign_state NO_TOKEN ;;
                   ret true)
                  (fun _ =>
                     assign_state TOKEN_PRESENT ;;
                     request_delitem peer_id ;;
                     token_delitem peer_id ;;
                     unregister_in_registry peer_id ;;
                     ret false) ;;
        if (sent : bool) then ret tt else release_loop rest
      else release_loop rest
  end.

Definition release : M unit :=
  lock_acquire ;;
  tick ;;
  st <- gets state ;;
  (if state_eqb st TOKEN_HELD
   then own <- gets owner_id ;;
        tm <- gets time ;;
        token_setitem (KInt own) (VInt tm) ;;
        assign_state TOKEN_PRESENT
   else ret tt) ;;
  st <- gets state ;;
  if state_eqb st TOKEN_PRESENT
  then
    order <- get_order ;;
    try_finally
      (try_except (release_loop order) (fun _ => ret tt))
      lock_release
  else ret tt.

Fixpoint destroy_loop (order : list Z) : M unit :=
  match order with
  | [] => ret tt
  | peer_id :: rest =>
      sent <- try_except
                (p <- peer peer_id ;;
                 lock_release ;;
                 tk <- gets token ;;
                 wire <- lift (_prepare tk) ;;
                 call p (CallObtainToken wire) ;;
                 lock_acquire ;;
                 assign_state NO_TOKEN ;;
                 ret true)
                (fun _ => lock_acquire ;; ret false) ;;
      if (sent : bool) then ret tt else destroy_loop rest
  end.

Definition destroy : M unit :=
  lock_acquire ;;
  tick ;;
  st <- gets state ;;
  (if negb (state_eqb st NO_TOKEN)
   then lock_release ;; release ;; lock_acquire
   else ret tt) ;;
  st <- gets state ;;
  (if state_eqb st TOKEN_PRESENT
   then order <- get_order ;; destroy_loop order
   else ret tt) ;;
  lock_release.

Fixpoint acquire_loop (ps : list Z) : M unit :=
  match ps with
  | [] => ret tt
  | peer_id :: rest =>
      try_finally
        (try_except
           (lock_release ;;
            p <- peer peer_id ;;
            tm <- gets time ;;
            own <- gets owner_id ;;
            call p (CallRequestToken tm own))
           (fun _ =>
              lock_acquire ;;
              request_delitem peer_id ;;
              token_delitem peer_id ;;
              unregister_in_registry peer_id ;;
              lock_release))
        lock_acquire ;;
      acquire_loop rest
  end.

(** [while self.state != TOKEN_PRESENT: lock.wait()]: the thread is
    suspended in [wait]; the test is made again by [acquire_resume]
    when it is woken up. *)
Definition wait_for_token : M unit :=
  st <- gets state ;;
  if negb (state_eqb st TOKEN_PRESENT) then lock_wait else ret tt.

Definition enter_critical_section : M unit :=
  assign_state TOKEN_HELD ;;
  own <- gets owner_id ;;
  tm <- gets time ;;
  token_setitem (KInt own) (VInt tm) ;;
  lock_release.

Definition acquire : M unit :=
  lock_acquire ;;
  tick ;;
  st <- gets state ;;
  (if state_eqb st NO_TOKEN
   then ps <- get_peers ;; acquire_loop ps ;; wait_for_token
   else ret tt) ;;
  enter_critical_section.

(** The rest of [acquire] for a thread woken up in [lock.wait()]. *)
Definition acquire_resume : M unit :=
  wait_for_token ;;
  enter_critical_section.

(** The part of [request_token] run under the monitor. *)
Definition request_token_update (t pid : Z) : M unit :=
  lock_acquire ;;
  modify (fun l => set_time (Z.max (time l + 1) (t + 1)) l) ;;
  r <- request_getitem pid ;;
  tm <- gets time ;;
  request_setitem pid (Z.max r tm) ;;
  lock_release.

Definition request_token (t pid : Z) : M unit :=
  request_token_update t pid ;;
  st <- gets state ;;
  if state_eqb st TOKEN_PRESENT then release else ret tt.

End Outbound.

Unset Implicit Arguments.

(** * Vocabulary of the properties *)

(** ** Running methods symbolically *)

Ltac unfold_prims :=
  cbv beta iota delta
    [tick assign_state request_setitem request_getitem
     request_delitem token_setitem token_getitem token_delitem
     lock_acquire lock_release lock_notify_all lock_wait
     get_peers peer unregister_in_registry get_order call lift
     gets modify update emit set_depth get_depth
     try_except try_finally bind ret raise].

Ltac destruct_world w :=
  let own := fresh "own" in
  let tm := fresh "tm" in
  let tk := fresh "tok" in
  let rq := fresh "rq" in
  let st := fresh "st" in
  let ps := fresh "ps" in
  let depth := fresh "depth" in
  let tr := fresh "tr" in
  destruct w as [[own tm tk rq st] [ps depth] tr]; simpl in *.

Definition wire_of (tk : Dict.t pyval) : pyval :=
  VList (map (fun kv => VList [val_of_key (fst kv); snd kv]) tk).

(** Peer [q] is registered and has no outstanding request. *)
Definition satisfied (ps : list Z) (rq : Dict.t Z) (tk : Dict.t pyval)
  (q : Z) : Prop :=
  Z_mem q ps = true /\
  exists r t,
    Dict.get (KInt q) rq = Some r /\
    Dict.get (KInt q) tk = Some (VInt t) /\
    r <= t.

(** Peer [p] is registered and has an outstanding request:
    [request[p] > token[p]]. *)
Definition claims (ps : list Z) (rq : Dict.t Z) (tk : Dict.t pyval)
  (p : Z) : Prop :=
  Z_mem p ps = true /\
  exists r t,
    Dict.get (KInt p) rq = Some r /\
    Dict.get (KInt p) tk = Some (VInt t) /\
    t < r.

(** The token dict when the hand-off loop of [release] starts. *)
Definition token_at_release (l : DistributedLock) (tk : Dict.t pyval)
  : Dict.t pyval :=
  match state l with
  | TOKEN_HELD => Dict.set (KInt (owner_id l)) (VInt (time l + 1)) tk
  | _ => tk
  end.

Definition higher_than (own : Z) (ps : list Z) : list Z :=
  filter (fun p => own <? p) ps.

Definition lower_than (own : Z) (ps : list Z) : list Z :=
  filter (fun p => p <? own) ps.

(** Scenario S3 of the specification: peers 1 to 4, the holder is 2,
    peers 4 and 1 have asked for the token. *)
Module ScenarioS3.

Definition all_up (p : Z) : bool := true.

Definition holder : World :=
  mkWorld
    (mkLock 2 5
            (Some [(KInt 2, VInt 5); (KInt 1, VInt 0); (KInt 3, VInt 0);
                   (KInt 4, VInt 0)])
            [(KInt 2, 0); (KInt 1, 4); (KInt 3, 0); (KInt 4, 3)]
            TOKEN_HELD)
    (mkPeerList [1; 3; 4] 0)
    [].

End ScenarioS3.

(** ** Relations between the lock before and after a method *)

(** [respects Rl m]: whatever the outcome of [m], the attributes of the
    lock before and after it are related by [Rl]. *)
Definition respects (Rl : DistributedLock -> DistributedLock -> Prop)
  {A : Type} (m : M A) : Prop :=
  forall w, Rl (self w) (self (snd (m w))).

(** The token mapping stays defined. *)
Definition keeps_token (l l' : DistributedLock) : Prop :=
  token l <> None -> token l' <> None.

(** Entries of [request] are only ever removed. *)
Definition request_shrinks (l l' : DistributedLock) : Prop :=
  forall k, Dict.get k (request l') = Dict.get k (request l) \/
            Dict.get k (request l') = None.

(** The relations used for framing are preorders. *)
Class Frame (Rl : DistributedLock -> DistributedLock -> Prop) : Prop := {
  frame_refl : forall l, Rl l l;
  frame_trans : forall a b c, Rl a b -> Rl b c -> Rl a c
}.

(** ** Reachable states *)

(** The public methods, with the reachability of the remote peers for
    those that call them. *)
Inductive method : Type :=
| Initialize
| Destroy (up : Z -> bool)
| RegisterPeer (pid : Z)
| UnregisterPeer (pid : Z)
| Acquire (up : Z -> bool)
| AcquireResume
| Release (up : Z -> bool)
| RequestToken (up : Z -> bool) (t pid : Z)
| ObtainToken (wire : pyval)
| DisplayStatus.

Definition run (m : method) : M unit :=
  match m with
  | Initialize => initialize
  | Destroy up => destroy up
  | RegisterPeer pid => register_peer pid
  | UnregisterPeer pid => unregister_peer pid
  | Acquire up => acquire up
  | AcquireResume => acquire_resume
  | Release up => release up
  | RequestToken up t pid => request_token up t pid
  | ObtainToken wire => obtain_token wire
  | DisplayStatus => display_status
  end.

(** The registry changes its membership through methods of its own. *)
Definition with_peers (ps : list Z) (w : World) : World :=
  mkWorld (self w) (mkPeerList ps (lock_depth (peer_list w))) (trace w).

(** States a peer goes through: it is constructed, [initialize] runs
    once the registry is populated, and from then on any public method
    may run, whatever its outcome. *)
Inductive reachable : World -> Prop :=
| reach_initialize (own : Z) (members : list Z) :
    reachable (snd (initialize (new_world own members)))
| reach_method (w : World) (m : method) :
    reachable w -> reachable (snd (run m w))
| reach_registry (w : World) (ps : list Z) :
    reachable w -> reachable (with_peers ps w).

(** ** Scenarios *)

(** Peer 1 knows peers 2 and 3; peer 2 has asked for the token and
    cannot be reached any more, peer 3 can. *)
Module ScenarioDeadClaimant.

Definition up (p : Z) : bool := negb (p =? 2).

Definition lock_in (s : token_state) : World :=
  mkWorld
    (mkLock 1 2
            (Some [(KInt 1, VInt 0); (KInt 2, VInt 0); (KInt 3, VInt 0)])
            [(KInt 1, 0); (KInt 2, 1); (KInt 3, 0)]
            s)
    (mkPeerList [2; 3] 0)
    [].

Definition token_wire (t1 : Z) : pyval :=
  VList [VList [VInt 1; VInt t1]; VList [VInt 2; VInt 0];
         VList [VInt 3; VInt 0]].

End ScenarioDeadClaimant.

(** Peer 1 joins a registry that already holds peer 2, which then asks
    for the token twice with the same timestamp. *)
Module ScenarioRepeatedRequest.

Definition up (p : Z) : bool := true.

Definition joined : World := snd (initialize (new_world 1 [2])).

Definition asked_once : World := snd (request_token up 0 2 joined).

Definition asked_twice : World := snd (request_token up 0 2 asked_once).

End ScenarioRepeatedRequest.

(** ** Merging a received token *)

(** The token dict after the assignments [token[k] = v] for the items
    of a list, in order. *)
Definition merged (items : list (pykey * pyval)) (tk : Dict.t pyval)
  : Dict.t pyval :=
  fold_left (fun d kv => Dict.set (fst kv) (snd kv) d) items tk.

(** The clock after [clock = max(clock, t + 1)] for the integer
    timestamps of a list, in order. *)
Definition clock_after (items : list (pykey * pyval)) (clock : Z) : Z :=
  fold_left (fun c kv => match snd kv with
                         | VInt z => Z.max c (z + 1)
                         | _ => c
                         end) items clock.

Definition is_int (v : pyval) : Prop := exists z, v = VInt z.

(** A serialized token: the sequence of entries [[p, t]]. *)
Definition items_of_pairs (pairs : list (Z * Z)) : list (pykey * pyval) :=
  map (fun pt => (KInt (fst pt), VInt (snd pt))) pairs.

Definition wire_of_pairs (pairs : list (Z * Z)) : pyval :=
  VList (map (fun pt => VList [VInt (fst pt); VInt (snd pt)]) pairs).

(** The world in which the merge loop of [obtain_token] starts: the
    monitor is held and the clock has been incremented. *)
Definition obtain_start (w : World) : World :=
  mkWorld (set_time (time (self w) + 1) (self w))
          (mkPeerList (peers (peer_list w)) (S (lock_depth (peer_list w))))
          (trace w ++ [EAcquire]).

(** ** Evictions and hand-offs *)

(** The lock after [del self.request[p]] and [del self.token[p]]. *)
Definition without_peer (p : Z) (l : DistributedLock) : DistributedLock :=
  mkLock (owner_id l) (time l)
         (option_map (Dict.remove (KInt p)) (token l))
         (Dict.remove (KInt p) (request l))
         (state l).

(** The registry after [unregister_peer(p)], the monitor held [n]
    times. *)
Definition registry_without (p : Z) (pl : PeerList) (n : nat) : PeerList :=
  mkPeerList (filter (fun q => negb (q =? p)) (peers pl)) n.

(** What [destroy] records for the peers it could not reach. *)
Definition failed_offers (wire : pyval) (qs : list Z) : list event :=
  flat_map (fun q => [ERelease; ECall q (CallObtainToken wire) false;
                      EAcquire]) qs.

(** ** Invariants of the clock and of the request mapping *)

(** The clock does not go back. *)
Definition clock_grows (l l' : DistributedLock) : Prop :=
  time l <= time l'.

(** The clock is not negative and no recorded request is ahead of it. *)
Definition requests_behind_clock (l : DistributedLock) : Prop :=
  0 <= time l /\
  forall k v, Dict.get k (request l) = Some v -> v <= time l.

Definition keeps_requests_behind (l l' : DistributedLock) : Prop :=
  requests_behind_clock l -> requests_behind_clock l'.

(** The methods that start by incrementing the clock. *)
Definition ticks (m : method) : bool :=
  match m with
  | Initialize => false
  | AcquireResume => false
  | DisplayStatus => false
  | _ => true
  end.

(** ** What acquire records *)



(** ** Leaving the held state *)

(** A method does not bring the lock (back) into [TOKEN_HELD]. *)
Definition stays_unheld (l l' : DistributedLock) : Prop :=
  state l <> TOKEN_HELD -> state l' <> TOKEN_HELD.

(** No member other than the owner has an outstanding request:
    [request[q] <= token[q]] for every one of them. *)
Definition nobody_claims (own : Z) (ps : list Z) (rq : Dict.t Z)
  (tk : Dict.t pyval) : Prop :=
  forall q, In q ps -> q <> own ->
            exists r t,
              Dict.get (KInt q) rq = Some r /\
              Dict.get (KInt q) tk = Some (VInt t) /\
              r <= t.

(** ** Evictions without a call *)

(** [request[q] > token[q]], as [release] tests it, for entries that are
    integers. *)
Definition claimb (rq : Dict.t Z) (tk : Dict.t pyval) (q : Z) : bool :=
  match Dict.get (KInt q) rq, Dict.get (KInt q) tk with
  | Some r, Some (VInt t) => t <? r
  | _, _ => false
  end.

(** What the handler of [release] records for the peers it removes. *)
Definition evictions (qs : list Z) : list event :=
  flat_map (fun q => [EDelRequest q; EDelToken q; EUnregister q]) qs.

(** Member [q] has integer entries in both mappings. *)
Definition has_entries (rq : Dict.t Z) (tk : Dict.t pyval) (q : Z) : Prop :=
  exists r t,
    Dict.get (KInt q) rq = Some r /\ Dict.get (KInt q) tk = Some (VInt t).

(** * The stub of the object request broker

    [modules/Common/orb.py]: what [Stub] makes of the decoded response
    frame of a remote call.  The lock's outbound calls
    ([peer.request_token(...)], [peer.obtain_token(...)]) go through
    [Stub.__getattr__] and [_rmi]. *)
Module Orb.

(** What a remote call raises: an exception of a Python builtin
    operation, the module's [CommunicationError], or an instance of the
    class that [type(name, (Exception,), {})] creates for an error
    reported by the server. *)
Inductive error : Type :=
| Builtin (e : exn)
| CommunicationError (type : string) (args : pyval)
| Remote (name : string) (args : pyval).

(** [needle in hay] for strings. *)
Fixpoint contains (needle hay : string) : bool :=
  if String.prefix needle hay then true
  else match hay with
       | EmptyString => false
       | String _ rest => contains needle rest
       end.

(** [key in c] for a string [key]: a key of an object, an element of an
    array, a substring of a string; [None] and integers are not
    containers. *)
Definition py_in (key : string) (c : pyval) : exn + bool :=
  match c with
  | VObj o => inr (Dict.mem (KStr key) (obj_dict o))
  | VList l =>
      inr (existsb (fun e => match e with
                             | VStr s => String.eqb s key
                             | _ => false
                             end) l)
  | VStr s => inr (contains key s)
  | VNone => inl TypeError
  | VInt _ => inl TypeError
  end.

(** [c[key]] for a string [key]: only objects are indexed by strings. *)
Definition py_getitem (c : pyval) (key : string) : exn + pyval :=
  match c with
  | VObj o =>
      match Dict.get (KStr key) (obj_dict o) with
      | Some v => inr v
      | None => inl KeyError
      end
  | _ => inl TypeError
  end.

Fixpoint has_nul (s : string) : bool :=
  match s with
  | EmptyString => false
  | String c rest => Ascii.eqb c Ascii.zero || has_nul rest
  end.

(** [type(name, (Exception,), {})]: the name must be a string without
    null characters. *)
Definition new_exception_class (name : pyval) : exn + string :=
  match name with
  | VStr s => if has_nul s then inl ValueError else inr s
  | _ => inl TypeError
  end.

Definition builtin {A} (r : exn + A) : error + A :=
  match r with
  | inl e => inl (Builtin e)
  | inr a => inr a
  end.

(** [Stub.handle_server_response(response)] *)
Definition handle_server_response (response : pyval) : error + pyval :=
  match py_in "result" response with
  | inl e => inl (Builtin e)
  | inr true => builtin (py_getitem response "result")
  | inr false =>
      match py_in "error" response with
      | inl e => inl (Builtin e)
      | inr true =>
          match builtin (py_getitem response "error") with
          | inl e => inl e
          | inr err =>
              match builtin (py_getitem err "name") with
              | inl e => inl e
              | inr name =>
                  match builtin (new_exception_class name) with
                  | inl e => inl e
                  | inr ex =>
                      match builtin (py_getitem err "args") with
                      | inl e => inl e
                      | inr args => inl (Remote ex args)
                      end
                  end
              end
          end
      | inr false =>
          inl (CommunicationError
                 "CommunicationError"
                 (VList [VStr "Something went wrong with the communication"]))
      end
  end.

(** [Stub._rmi(method, *args)]; [remote_method_invokation], the exchange
    of frames over a socket, is a parameter: it either raises or returns
    the decoded response. *)
Definition _rmi
  (remote_method_invokation : string -> list pyval -> error + pyval)
  (method : string) (args : list pyval) : error + pyval :=
  match remote_method_invokation method args with
  | inl e => inl e
  | inr response => handle_server_response response
  end.

End Orb.

(** * Properties *)

(** ** Dicts *)

Lemma key_eqb_eq (a b : pykey) : key_eqb a b = true <-> a = b.
Proof.
  destruct a, b; simpl; split; intros H; try congruence; try reflexivity.
  - apply Z.eqb_eq in H. now subst.
  - inversion H. apply Z.eqb_refl.
  - apply String.eqb_eq in H. now subst.
  - inversion H. apply String.eqb_refl.
Qed.

Lemma key_eqb_refl (a : pykey) : key_eqb a a = true.
Proof. now apply key_eqb_eq. Qed.

Lemma key_eqb_neq (a b : pykey) : key_eqb a b = false <-> a <> b.
Proof.
  split; intros H.
  - intros E. apply key_eqb_eq in E. congruence.
  - destruct (key_eqb a b) eqn:E; [apply key_eqb_eq in E; contradiction | easy].
Qed.

Lemma key_eq_dec (a b : pykey) : {a = b} + {a <> b}.
Proof.
  destruct (key_eqb a b) eqn:E.
  - left. now apply key_eqb_eq.
  - right. now apply key_eqb_neq.
Qed.

Module DictFacts.

Section WithValues.

Context {V : Type}.
Implicit Types (d : Dict.t V) (k : pykey) (v : V).

Lemma get_set_same k v d : Dict.get k (Dict.set k v d) = Some v.
Proof.
  induction d as [| [k' v'] r IH]; simpl.
  - now rewrite key_eqb_refl.
  - destruct (key_eqb k k') eqn:E; simpl; rewrite E; auto.
Qed.

Lemma get_set_other k k' v d :
  k <> k' -> Dict.get k (Dict.set k' v d) = Dict.get k d.
Proof.
  intros N. induction d as [| [k0 v0] r IH]; simpl.
  - apply key_eqb_neq in N. now rewrite N.
  - destruct (key_eqb k' k0) eqn:E; simpl.
    + apply key_eqb_eq in E. subst k0.
      apply key_eqb_neq in N. now rewrite N.
    + now rewrite IH.
Qed.

Lemma get_remove_other k k' d :
  k <> k' -> Dict.get k (Dict.remove k' d) = Dict.get k d.
Proof.
  intros N. unfold Dict.remove.
  induction d as [| [k0 v0] r IH]; simpl; auto.
  destruct (key_eqb k' k0) eqn:E; simpl.
  - apply key_eqb_eq in E. subst k0.
    apply key_eqb_neq in N. now rewrite N.
  - now rewrite IH.
Qed.

Lemma get_remove_same k d : Dict.get k (Dict.remove k d) = None.
Proof.
  unfold Dict.remove.
  induction d as [| [k0 v0] r IH]; simpl; auto.
  destruct (key_eqb k k0) eqn:E; simpl; auto. now rewrite E.
Qed.

Lemma get_none_notin k d : Dict.get k d = None <-> ~ In k (Dict.keys d).
Proof.
  induction d as [| [k0 v0] r IH]; simpl.
  - tauto.
  - destruct (key_eqb k k0) eqn:E.
    + apply key_eqb_eq in E. subst. split; [discriminate | tauto].
    + apply key_eqb_neq in E. rewrite IH. split.
      * intros H [F | F]; [congruence | tauto].
      * tauto.
Qed.

Lemma set_fresh k v d :
  ~ In k (Dict.keys d) -> Dict.set k v d = d ++ [(k, v)].
Proof.
  induction d as [| [k0 v0] r IH]; simpl; intros N; auto.
  destruct (key_eqb k k0) eqn:E.
  - apply key_eqb_eq in E. subst. tauto.
  - rewrite IH; tauto.
Qed.

Lemma keys_set_present k v d :
  In k (Dict.keys d) -> Dict.keys (Dict.set k v d) = Dict.keys d.
Proof.
  induction d as [| [k0 v0] r IH]; simpl; intros H; [tauto |].
  destruct (key_eqb k k0) eqn:E; simpl; auto.
  f_equal. apply IH. destruct H as [H | H]; auto.
  subst. now rewrite key_eqb_refl in E.
Qed.

Lemma NoDup_snoc (l : list pykey) k :
  NoDup l -> ~ In k l -> NoDup (l ++ [k]).
Proof.
  induction l as [| a l IH]; simpl; intros W N.
  - constructor; [easy | constructor].
  - inversion W as [| ? ? Na W']; subst. constructor.
    + rewrite in_app_iff. simpl. intuition congruence.
    + apply IH; tauto.
Qed.

Lemma wf_set k v d : Dict.wf d -> Dict.wf (Dict.set k v d).
Proof.
  unfold Dict.wf. intros W.
  destruct (in_dec key_eq_dec k (Dict.keys d)) as [I | N].
  - now rewrite keys_set_present.
  - rewrite set_fresh by assumption. unfold Dict.keys.
    rewrite map_app. simpl. now apply NoDup_snoc.
Qed.

Lemma wf_of_items (l : list (pykey * V)) : Dict.wf (Dict.of_items l).
Proof.
  unfold Dict.of_items.
  assert (G : forall acc, Dict.wf acc ->
              Dict.wf (fold_left (fun d kv => Dict.set (fst kv) (snd kv) d)
                                 l acc)).
  { induction l as [| [k v] r IH]; simpl; intros acc W; auto.
    apply IH. now apply wf_set. }
  apply G. constructor.
Qed.

Lemma get_in k v d : Dict.wf d -> In (k, v) d -> Dict.get k d = Some v.
Proof.
  unfold Dict.wf. induction d as [| [k0 v0] r IH]; simpl; intros W H.
  - tauto.
  - inversion W as [| ? ? N W']; subst.
    destruct H as [H | H].
    + inversion H; subst. now rewrite key_eqb_refl.
    + destruct (key_eqb k k0) eqn:E.
      * apply key_eqb_eq in E. subst.
        exfalso. apply N. change k0 with (fst (k0, v)).
        now apply in_map.
      * now apply IH.
Qed.

End WithValues.

End DictFacts.

(** ** The wire form of the token *)

Lemma as_key_val_of_key (k : pykey) : as_key (val_of_key k) = inr k.
Proof. now destruct k. Qed.

(** Decoding the entries of a dict onto an accumulator with other keys
    appends them in order. *)
Lemma dict_update_entries (d acc : Dict.t pyval) :
  Dict.wf (acc ++ d) ->
  dict_update (map (fun kv => VList [val_of_key (fst kv); snd kv]) d) acc
  = inr (acc ++ d).
Proof.
  revert acc. induction d as [| [k v] r IH]; intros acc W; simpl.
  - now rewrite app_nil_r.
  - rewrite as_key_val_of_key.
    assert (N : ~ In k (Dict.keys acc)).
    { unfold Dict.wf, Dict.keys in W. rewrite map_app in W. simpl in W.
      apply NoDup_remove_2 in W. rewrite in_app_iff in W. tauto. }
    rewrite DictFacts.set_fresh by exact N.
    rewrite IH; rewrite <- app_assoc; simpl; [reflexivity | exact W].
Qed.

(** C9.  For every mapping (a dict: its keys are distinct), [_prepare]
    yields a wire value that [_unprepare] turns back into the same
    dict: the same key-value pairs, in the same order. *)
Theorem prepare_unprepare_roundtrip (d : Dict.t pyval) :
  Dict.wf d ->
  exists wire,
    _prepare (Some d) = inr wire /\
    _unprepare wire = inr d /\
    (forall k, match _unprepare wire with
               | inr d' => Dict.get k d' = Dict.get k d
               | inl _ => False
               end).
Proof.
  intros W. eexists. split; [reflexivity |].
  assert (E : _unprepare
                (VList (map (fun kv => VList [val_of_key (fst kv); snd kv])
                            (Dict.items d))) = inr d).
  { unfold _unprepare, py_dict, py_iter, Dict.items.
    now rewrite (dict_update_entries d Dict.empty W). }
  split; [exact E |]. intros k. now rewrite E.
Qed.

(** The token of a peer that knows peers 1, 2 and 3 survives the round
    trip. *)
Lemma prepare_unprepare_roundtrip_witness :
  exists wire,
    _prepare (Some [(KInt 1, VInt 4); (KInt 2, VInt 0); (KInt 3, VInt 7)])
    = inr wire /\
    _unprepare wire
    = inr [(KInt 1, VInt 4); (KInt 2, VInt 0); (KInt 3, VInt 7)] /\
    (forall k, match _unprepare wire with
               | inr d' =>
                   Dict.get k d'
                   = Dict.get k [(KInt 1, VInt 4); (KInt 2, VInt 0);
                                 (KInt 3, VInt 7)]
               | inl _ => False
               end).
Proof.
  apply (prepare_unprepare_roundtrip
           [(KInt 1, VInt 4); (KInt 2, VInt 0); (KInt 3, VInt 7)]).
  unfold Dict.wf. simpl.
  repeat constructor; simpl; intuition discriminate.
Defined.

(** ** The hand-off order *)

Lemma get_order_loop_spec (own : Z) (ps higher lower : list Z) :
  get_order_loop own ps higher lower
  = (higher ++ higher_than own ps, lower ++ lower_than own ps).
Proof.
  revert higher lower.
  induction ps as [| p r IH]; intros higher lower; simpl.
  - now rewrite !app_nil_r.
  - destruct (p <? own) eqn:L; destruct (own <? p) eqn:H;
      rewrite IH; rewrite <- ?app_assoc; simpl; try reflexivity.
    apply Z.ltb_lt in L. apply Z.ltb_lt in H. lia.
Qed.

Lemma order_of_spec (own : Z) (ps : list Z) :
  order_of own ps = higher_than own ps ++ lower_than own ps.
Proof. unfold order_of. now rewrite get_order_loop_spec. Qed.

Lemma filter_ascending (f : Z -> bool) (ps : list Z) :
  StronglySorted Z.lt ps -> StronglySorted Z.lt (filter f ps).
Proof.
  induction 1 as [| p r S IH F]; simpl; [constructor |].
  destruct (f p); [| exact IH].
  constructor; [exact IH |].
  rewrite Forall_forall in *. intros q Hq.
  apply filter_In in Hq. now apply F.
Qed.

Lemma order_of_in (own p : Z) (ps : list Z) :
  In p (order_of own ps) <-> In p ps /\ p <> own.
Proof.
  rewrite order_of_spec, in_app_iff. unfold higher_than, lower_than.
  rewrite !filter_In, Z.ltb_lt, Z.ltb_lt.
  split.
  - intros [[I L] | [I L]]; split; auto; lia.
  - intros [I N]. destruct (Z.lt_ge_cases own p); [left | right];
      split; auto; lia.
Qed.

(** ** release *)

Lemma release_loop_skip (up : Z -> bool) (pre rest : list Z) (w : World)
  (tk : Dict.t pyval) :
  token (self w) = Some tk ->
  (forall q, In q pre ->
             satisfied (peers (peer_list w)) (request (self w)) tk q) ->
  release_loop up (pre ++ rest) w = release_loop up rest w.
Proof.
  intros Ht. induction pre as [| q pre IH]; intros S; simpl; [reflexivity |].
  destruct (S q (or_introl eq_refl)) as [Hm (r & t & Hr & Hk & Hle)].
  unfold_prims. rewrite Hm, Hr, Ht, Hk. simpl.
  replace (t <? r) with false by (symmetry; apply Z.ltb_ge; lia).
  apply IH. intros q' Hq'. apply S. now right.
Qed.

Lemma release_loop_send (up : Z -> bool) (p : Z) (rest : list Z) (w : World)
  (tk : Dict.t pyval) (n : nat) :
  token (self w) = Some tk ->
  lock_depth (peer_list w) = S n ->
  claims (peers (peer_list w)) (request (self w)) tk p ->
  up p = true ->
  release_loop up (p :: rest) w
  = (Ret tt,
     mkWorld (set_state NO_TOKEN (self w)) (peer_list w)
             (trace w ++ [ERelease; ECall p (CallObtainToken (wire_of tk)) true;
                          EAcquire])).
Proof.
  intros Ht Hd [Hm (r & t & Hr & Hk & Hlt)] Hup.
  destruct_world w. subst.
  simpl. unfold_prims. simpl.
  rewrite Hm; simpl; rewrite Hr; simpl; rewrite Hk; simpl.
  replace (t <? r) with true by (symmetry; apply Z.ltb_lt; lia).
  simpl. rewrite Hup. simpl. rewrite <- !app_assoc. reflexivity.
Qed.

Lemma release_loop_nobody (up : Z -> bool) (order : list Z) (w : World)
  (tk : Dict.t pyval) :
  token (self w) = Some tk ->
  (forall q, In q order ->
             satisfied (peers (peer_list w)) (request (self w)) tk q) ->
  release_loop up order w = (Ret tt, w).
Proof.
  intros Ht S. rewrite <- (app_nil_r order).
  now rewrite (release_loop_skip up order [] w tk Ht S).
Qed.

Lemma key_int_neq (a b : Z) : a <> b -> KInt a <> KInt b.
Proof. congruence. Qed.

Lemma release_sends_to_first_claimant (up : Z -> bool) (w : World)
  (tk : Dict.t pyval) (pre post : list Z) (p : Z) :
  state (self w) <> NO_TOKEN ->
  token (self w) = Some tk ->
  order_of (owner_id (self w)) (peers (peer_list w)) = pre ++ p :: post ->
  (forall q, In q pre ->
             satisfied (peers (peer_list w)) (request (self w)) tk q) ->
  claims (peers (peer_list w)) (request (self w)) tk p ->
  up p = true ->
  release up w
  = (Ret tt,
     mkWorld (mkLock (owner_id (self w)) (time (self w) + 1)
                     (Some (token_at_release (self w) tk))
                     (request (self w)) NO_TOKEN)
             (peer_list w)
             (trace w ++
                [EAcquire; ERelease;
                 ECall p (CallObtainToken
                            (wire_of (token_at_release (self w) tk))) true;
                 EAcquire; ERelease])).
Proof.
  intros Hs Ht Ho Hpre Hp Hup.
  assert (Hne : forall q, In q (pre ++ p :: post) ->
                          KInt q <> KInt (owner_id (self w))).
  { intros q Hq. rewrite <- Ho in Hq. apply order_of_in in Hq.
    apply key_int_neq. tauto. }
  destruct_world w. subst tok.
  set (tk' := token_at_release (mkLock own tm (Some tk) rq st) tk).
  assert (Hpre' : forall q, In q pre -> satisfied ps rq tk' q).
  { intros q Hq. destruct (Hpre q Hq) as [Hm (r & t & Hr & Hk & Hle)].
    split; [exact Hm |]. exists r, t. repeat split; auto.
    unfold tk', token_at_release. simpl. destruct st; auto.
    rewrite DictFacts.get_set_other; auto.
    apply Hne. rewrite in_app_iff. now left. }
  assert (Hp' : claims ps rq tk' p).
  { destruct Hp as [Hm (r & t & Hr & Hk & Hlt)].
    split; [exact Hm |]. exists r, t. repeat split; auto.
    unfold tk', token_at_release. simpl. destruct st; auto.
    rewrite DictFacts.get_set_other; auto.
    apply Hne. rewrite in_app_iff. right. now left. }
  unfold release. unfold_prims. simpl.
  assert (L : forall w0,
             token (self w0) = Some tk' ->
             peers (peer_list w0) = ps -> request (self w0) = rq ->
             lock_depth (peer_list w0) = S depth ->
             release_loop up (pre ++ p :: post) w0
             = (Ret tt,
                mkWorld (set_state NO_TOKEN (self w0)) (peer_list w0)
                        (trace w0 ++
                           [ERelease;
                            ECall p (CallObtainToken (wire_of tk')) true;
                            EAcquire]))).
  { intros w0 H1 H2 H3 H4.
    rewrite (release_loop_skip up pre (p :: post) w0 tk' H1)
      by (rewrite H2, H3; exact Hpre').
    apply (release_loop_send up p post w0 tk' depth H1 H4);
      [rewrite H2, H3; exact Hp' | exact Hup]. }
  destruct st; [congruence | |]; simpl; rewrite Ho;
    (rewrite L by reflexivity); simpl; rewrite <- !app_assoc; reflexivity.
Qed.

(** [get_order()] reads the registry and the own id and changes nothing. *)
Lemma get_order_run (w : World) :
  get_order w
  = (Ret (order_of (owner_id (self w)) (peers (peer_list w))), w).
Proof. reflexivity. Qed.

(** C2.  The hand-off order is the ids above the own id followed by the
    ids below it, each part in the order of the membership list, hence
    ascending when the membership list is; and [release], called by a
    peer that has the token, sends it to the first peer of that order
    whose request is outstanding, stops there and ends in [NO_TOKEN]. *)
Theorem release_hand_off_order (own : Z) (ps : list Z) :
  order_of own ps = higher_than own ps ++ lower_than own ps /\
  (forall p, In p (higher_than own ps) <-> In p ps /\ own < p) /\
  (forall p, In p (lower_than own ps) <-> In p ps /\ p < own) /\
  (StronglySorted Z.lt ps ->
   StronglySorted Z.lt (higher_than own ps) /\
   StronglySorted Z.lt (lower_than own ps)) /\
  (forall (up : Z -> bool) (w : World) (tk : Dict.t pyval)
          (pre post : list Z) (p : Z),
      owner_id (self w) = own ->
      peers (peer_list w) = ps ->
      state (self w) <> NO_TOKEN ->
      token (self w) = Some tk ->
      higher_than own ps ++ lower_than own ps = pre ++ p :: post ->
      (forall q, In q pre -> satisfied ps (request (self w)) tk q) ->
      claims ps (request (self w)) tk p ->
      up p = true ->
      get_order w = (Ret (pre ++ p :: post), w) /\
      release up w
      = (Ret tt,
         mkWorld (mkLock own (time (self w) + 1)
                         (Some (token_at_release (self w) tk))
                         (request (self w)) NO_TOKEN)
                 (peer_list w)
                 (trace w ++
                    [EAcquire; ERelease;
                     ECall p (CallObtainToken
                                (wire_of (token_at_release (self w) tk)))
                           true;
                     EAcquire; ERelease]))).
Proof.
  split; [apply order_of_spec |].
  split; [intros p; unfold higher_than; rewrite filter_In, Z.ltb_lt;
          reflexivity |].
  split; [intros p; unfold lower_than; rewrite filter_In, Z.ltb_lt;
          reflexivity |].
  split; [intros S; split; now apply filter_ascending |].
  intros up w tk pre post p Hown Hps Hs Ht Ho Hpre Hp Hup.
  rewrite <- order_of_spec in Ho. subst own ps. split.
  - rewrite get_order_run. now rewrite Ho.
  - now apply release_sends_to_first_claimant with (pre := pre) (post := post).
Qed.

Lemma release_hand_off_order_witness :
  order_of 2 [1; 3; 4] = [3; 4; 1] /\
  StronglySorted Z.lt [3; 4] /\
  state (self (snd (release ScenarioS3.all_up ScenarioS3.holder))) = NO_TOKEN /\
  trace (snd (release ScenarioS3.all_up ScenarioS3.holder))
  = [EAcquire; ERelease;
     ECall 4 (CallObtainToken
                (VList [VList [VInt 2; VInt 6]; VList [VInt 1; VInt 0];
                        VList [VInt 3; VInt 0]; VList [VInt 4; VInt 0]]))
           true;
     EAcquire; ERelease].
Proof.
  destruct (release_hand_off_order 2 [1; 3; 4]) as (A & _ & _ & S & R).
  assert (Sorted124 : StronglySorted Z.lt [1; 3; 4]).
  { repeat constructor; lia. }
  destruct (R ScenarioS3.all_up ScenarioS3.holder
              [(KInt 2, VInt 5); (KInt 1, VInt 0); (KInt 3, VInt 0);
               (KInt 4, VInt 0)]
              [3] [1] 4) as [_ E].
  - reflexivity.
  - reflexivity.
  - discriminate.
  - reflexivity.
  - reflexivity.
  - intros q [<- | []]. split; [reflexivity |].
    exists 0, 0. repeat split; reflexivity || lia.
  - split; [reflexivity |]. exists 3, 0. repeat split; reflexivity || lia.
  - reflexivity.
  - split; [rewrite A; reflexivity |].
    split; [exact (proj1 (S Sorted124)) |].
    rewrite E. split; reflexivity.
Defined.

(** ** Framing *)

Section Respects.

Context {Rl : DistributedLock -> DistributedLock -> Prop} `{!Frame Rl}.

Let Rl_refl := @frame_refl Rl _.
Let Rl_trans := @frame_trans Rl _.

Lemma respects_ret {A} (a : A) : respects Rl (ret a).
Proof. intros w. apply Rl_refl. Qed.

Lemma respects_raise {A} (e : exn) : respects Rl (@raise A e).
Proof. intros w. apply Rl_refl. Qed.

Lemma respects_bind {A B} (m : M A) (k : A -> M B) :
  respects Rl m -> (forall a, respects Rl (k a)) -> respects Rl (bind m k).
Proof.
  intros Hm Hk w. unfold bind. specialize (Hm w).
  destruct (m w) as [[a | e |] w']; simpl in *; auto.
  eapply Rl_trans; [exact Hm | apply Hk].
Qed.

Lemma respects_try_except {A} (m : M A) (h : exn -> M A) :
  respects Rl m -> (forall e, respects Rl (h e)) ->
  respects Rl (try_except m h).
Proof.
  intros Hm Hh w. unfold try_except. specialize (Hm w).
  destruct (m w) as [[a | e |] w']; simpl in *; auto.
  eapply Rl_trans; [exact Hm | apply Hh].
Qed.

Lemma respects_try_finally {A} (m : M A) (f : M unit) :
  respects Rl m -> respects Rl f -> respects Rl (try_finally m f).
Proof.
  intros Hm Hf w. unfold try_finally. specialize (Hm w).
  destruct (m w) as [[a | e |] w']; simpl in *; auto;
    specialize (Hf w'); destruct (f w') as [[[] | e' |] w'']; simpl in *;
    eapply Rl_trans; eauto.
Qed.

Lemma respects_gets {A} (f : DistributedLock -> A) : respects Rl (gets f).
Proof. intros w. apply Rl_refl. Qed.

Lemma respects_update (f : DistributedLock -> exn + DistributedLock) :
  (forall l l', f l = inr l' -> Rl l l') -> respects Rl (update f).
Proof.
  intros H w. unfold update. destruct (f (self w)) eqn:E; simpl; auto.
Qed.

Lemma respects_modify (f : DistributedLock -> DistributedLock) :
  (forall l, Rl l (f l)) -> respects Rl (modify f).
Proof.
  intros H. apply respects_update. intros l l' E. inversion E. apply H.
Qed.

Lemma respects_emit (e : event) : respects Rl (emit e).
Proof. intros w. apply Rl_refl. Qed.

Lemma respects_lift {A} (r : exn + A) : respects Rl (lift r).
Proof. destruct r; [apply respects_raise | apply respects_ret]. Qed.

Lemma respects_lock_acquire : respects Rl lock_acquire.
Proof. intros w. apply Rl_refl. Qed.

Lemma respects_lock_release : respects Rl lock_release.
Proof.
  intros w. unfold_prims. destruct (lock_depth (peer_list w)); apply Rl_refl.
Qed.

Lemma respects_lock_notify_all : respects Rl lock_notify_all.
Proof.
  intros w. unfold_prims. destruct (lock_depth (peer_list w)); apply Rl_refl.
Qed.

Lemma respects_lock_wait : respects Rl lock_wait.
Proof.
  intros w. unfold_prims. destruct (lock_depth (peer_list w)); apply Rl_refl.
Qed.

Lemma respects_get_peers : respects Rl get_peers.
Proof. intros w. apply Rl_refl. Qed.

Lemma respects_peer (p : Z) : respects Rl (peer p).
Proof.
  intros w. unfold_prims. destruct (Z_mem p (peers (peer_list w)));
    apply Rl_refl.
Qed.

Lemma respects_unregister_in_registry (p : Z) :
  respects Rl (unregister_in_registry p).
Proof. intros w. apply Rl_refl. Qed.

Lemma respects_get_order : respects Rl get_order.
Proof. intros w. apply Rl_refl. Qed.

Lemma respects_call (up : Z -> bool) (p : Z) (c : remote_call) :
  respects Rl (call up p c).
Proof. intros w. unfold_prims. destruct (up p); apply Rl_refl. Qed.

Lemma respects_request_getitem (k : Z) : respects Rl (request_getitem k).
Proof.
  intros w. unfold_prims.
  destruct (Dict.get (KInt k) (request (self w))); apply Rl_refl.
Qed.

Lemma respects_token_getitem (k : Z) : respects Rl (token_getitem k).
Proof.
  intros w. unfold_prims. destruct (token (self w)) as [tk |];
    [destruct (Dict.get (KInt k) tk) |]; apply Rl_refl.
Qed.

End Respects.

Ltac frame_step :=
  first
    [ apply respects_bind; [| intros ?]
    | apply respects_try_except; [| intros ?]
    | apply respects_try_finally
    | apply respects_ret
    | apply respects_raise
    | apply respects_gets
    | apply respects_emit
    | apply respects_lift
    | apply respects_lock_acquire
    | apply respects_lock_release
    | apply respects_lock_notify_all
    | apply respects_lock_wait
    | apply respects_get_peers
    | apply respects_peer
    | apply respects_unregister_in_registry
    | apply respects_get_order
    | apply respects_call
    | apply respects_request_getitem
    | apply respects_token_getitem
    | match goal with
      | |- respects _ (if ?b then _ else _) => destruct b
      | |- respects _ (match ?x with _ => _ end) => destruct x
      end ].

(** *** The token mapping stays defined *)

Lemma keeps_token_refl (l : DistributedLock) : keeps_token l l.
Proof. unfold keeps_token. auto. Qed.

Lemma keeps_token_trans (a b c : DistributedLock) :
  keeps_token a b -> keeps_token b c -> keeps_token a c.
Proof. unfold keeps_token. auto. Qed.

Lemma keeps_token_frame : Frame keeps_token.
Proof. split; [apply keeps_token_refl | apply keeps_token_trans]. Qed.

#[local] Existing Instance keeps_token_frame.

Create HintDb frames.

Lemma keeps_token_update (f : DistributedLock -> exn + DistributedLock) :
  (forall l l', f l = inr l' -> token l' = token l \/ token l' <> None) ->
  respects keeps_token (update f).
Proof.
  intros H. apply respects_update. intros l l' E. unfold keeps_token.
  destruct (H l l' E) as [-> | N]; auto.
Qed.

Ltac keeps_token_prim :=
  unfold tick, assign_state, request_setitem, request_delitem,
    token_setitem, token_delitem, modify;
  repeat (frame_step; eauto with frames);
  try (apply keeps_token_update; intros l l' E;
       repeat match type of E with
              | context [match ?x with _ => _ end] => destruct x
              | context [if ?b then _ else _] => destruct b
              end;
       inversion E; simpl; auto; right; discriminate).

Lemma keeps_token_tick : respects keeps_token tick.
Proof. keeps_token_prim. Qed.

Lemma keeps_token_assign_state s : respects keeps_token (assign_state s).
Proof. keeps_token_prim. Qed.

Lemma keeps_token_request_setitem k v :
  respects keeps_token (request_setitem k v).
Proof. keeps_token_prim. Qed.

Lemma keeps_token_request_delitem k :
  respects keeps_token (request_delitem k).
Proof. keeps_token_prim. Qed.

Lemma keeps_token_token_setitem k v :
  respects keeps_token (token_setitem k v).
Proof. keeps_token_prim. Qed.

Lemma keeps_token_token_delitem k :
  respects keeps_token (token_delitem k).
Proof. keeps_token_prim. Qed.

#[local] Hint Resolve keeps_token_tick keeps_token_assign_state
  keeps_token_request_setitem keeps_token_request_delitem
  keeps_token_token_setitem keeps_token_token_delitem : frames.

Ltac keeps_token_tac :=
  repeat (frame_step; eauto with frames).

Lemma keeps_token_release_loop up order :
  respects keeps_token (release_loop up order).
Proof.
  induction order as [| p rest IH]; simpl; keeps_token_tac.
Qed.

Lemma keeps_token_release up : respects keeps_token (release up).
Proof.
  unfold release. keeps_token_tac. apply keeps_token_release_loop.
Qed.

Lemma keeps_token_initialize_loop ps :
  respects keeps_token (initialize_loop ps).
Proof. induction ps as [| p rest IH]; simpl; keeps_token_tac. Qed.

Lemma keeps_token_obtain_loop items :
  respects keeps_token (obtain_loop items).
Proof. induction items as [| [k v] rest IH]; simpl; keeps_token_tac. Qed.

Lemma keeps_token_destroy_loop up order :
  respects keeps_token (destroy_loop up order).
Proof. induction order as [| p rest IH]; simpl; keeps_token_tac. Qed.

Lemma keeps_token_acquire_loop up ps :
  respects keeps_token (acquire_loop up ps).
Proof. induction ps as [| p rest IH]; simpl; keeps_token_tac. Qed.

#[local] Hint Resolve keeps_token_release_loop keeps_token_initialize_loop
  keeps_token_obtain_loop keeps_token_destroy_loop keeps_token_acquire_loop
  : frames.

Lemma keeps_token_initialize : respects keeps_token initialize.
Proof.
  unfold initialize. keeps_token_tac.
  apply respects_modify. intros l _. discriminate.
Qed.

(** No public method, whatever its outcome, makes the token mapping
    undefined. *)
Lemma keeps_token_run (m : method) : respects keeps_token (run m).
Proof.
  destruct m; simpl; try (keeps_token_tac; fail).
  apply keeps_token_initialize.
Qed.

(** ** initialize *)

(** [request[p] = 0] and [token[p] = 0] for every [p] of a list. *)
Lemma initialize_loop_run (ps : list Z) (l : DistributedLock)
  (pl : PeerList) (tr : list event) (tk : Dict.t pyval) :
  token l = Some tk ->
  exists tk' rq',
    initialize_loop ps (mkWorld l pl tr)
    = (Ret tt,
       mkWorld (mkLock (owner_id l) (time l) (Some tk') rq' (state l)) pl tr)
    /\ (forall p, In p ps ->
                  Dict.get (KInt p) tk' = Some (VInt 0) /\
                  Dict.get (KInt p) rq' = Some 0)
    /\ (forall k, (forall p, In p ps -> k <> KInt p) ->
                  Dict.get k tk' = Dict.get k tk /\
                  Dict.get k rq' = Dict.get k (request l)).
Proof.
  revert l tk. induction ps as [| p rest IH]; intros l tk Ht; simpl.
  - exists tk, (request l). destruct l; simpl in *; subst.
    repeat split; tauto.
  - unfold_prims. simpl. rewrite Ht. simpl.
    destruct (IH (set_token (Some (Dict.set (KInt p) (VInt 0) tk))
                    (set_request (Dict.set (KInt p) 0 (request l)) l))
                 (Dict.set (KInt p) (VInt 0) tk) eq_refl)
      as (tk' & rq' & E & Hin & Hout).
    simpl in E, Hout.
    exists tk', rq'. split; [exact E |]. split.
    + intros q [<- | Hq]; [| now apply Hin].
      destruct (in_dec Z.eq_dec p rest) as [I | N]; [now apply Hin |].
      destruct (Hout (KInt p)) as [A B].
      { intros q Hq E'. inversion E'. congruence. }
      rewrite A, B, !DictFacts.get_set_same. auto.
    + intros k Hk. destruct (Hout k) as [A B].
      { intros q Hq. apply Hk. now right. }
      rewrite A, B.
      rewrite !DictFacts.get_set_other by (apply Hk; now left). auto.
Qed.

(** Running the combinators when the outcome of the first part is known. *)
Lemma bind_run {A B} (m : M A) (k : A -> M B) (w w' : World) (a : A)
  (r : outcome B * World) :
  m w = (Ret a, w') -> k a w' = r -> bind m k w = r.
Proof. intros E1 E2. unfold bind. now rewrite E1. Qed.

Lemma try_except_run {A} (m : M A) (h : exn -> M A) (w w' : World) (a : A) :
  m w = (Ret a, w') -> try_except m h w = (Ret a, w').
Proof. intros E. unfold try_except. now rewrite E. Qed.

Lemma try_finally_run {A} (m : M A) (f : M unit) (w w' w'' : World) (a : A) :
  m w = (Ret a, w') -> f w' = (Ret tt, w'') ->
  try_finally m f w = (Ret a, w'').
Proof. intros E1 E2. unfold try_finally. now rewrite E1, E2. Qed.

(** What [initialize] does to a freshly constructed lock. *)
Lemma initialize_run (own : Z) (members : list Z) :
  exists tk rq,
    initialize (new_world own members)
    = (Ret tt,
       mkWorld (mkLock own 0 (Some tk) rq
                       (match members with
                        | [] => TOKEN_PRESENT
                        | _ :: _ => NO_TOKEN
                        end))
               (mkPeerList members 0) [EAcquire; ERelease])
    /\ (forall p, In p (own :: members) ->
                  Dict.get (KInt p) tk = Some (VInt 0) /\
                  Dict.get (KInt p) rq = Some 0)
    /\ (forall k, (forall p, In p (own :: members) -> k <> KInt p) ->
                  Dict.get k tk = None /\ Dict.get k rq = None).
Proof.
  destruct members as [| m rest].
  - exists [(KInt own, VInt 0)], [(KInt own, 0)].
    split; [reflexivity |]. split.
    + intros p [<- | []]. simpl. now rewrite Z.eqb_refl.
    + intros k Hk. specialize (Hk own (or_introl eq_refl)).
      apply key_eqb_neq in Hk. simpl. now rewrite Hk.
  - destruct (initialize_loop_run (m :: rest)
                (mkLock own 0 (Some [(KInt own, VInt 0)]) [(KInt own, 0)]
                        NO_TOKEN)
                (mkPeerList (m :: rest) 1) [EAcquire]
                [(KInt own, VInt 0)] eq_refl)
      as (tk & rq & E & Hin & Hout).
    exists tk, rq. split.
    + unfold initialize.
      eapply bind_run; [reflexivity |].
      eapply try_finally_run.
      * apply try_except_run.
        do 4 (eapply bind_run; [reflexivity |]).
        exact E.
      * reflexivity.
    + split.
      * intros p Hp.
        destruct (in_dec Z.eq_dec p (m :: rest)) as [I | N];
          [now apply Hin |].
        destruct Hp as [<- | Hp]; [| contradiction].
        destruct (Hout (KInt own)) as [A B].
        { intros q Hq E'. inversion E'. congruence. }
        rewrite A, B. simpl. now rewrite Z.eqb_refl.
      * intros k Hk. destruct (Hout k) as [A B].
        { intros q Hq. apply Hk. now right. }
        rewrite A, B. specialize (Hk own (or_introl eq_refl)).
        apply key_eqb_neq in Hk. simpl. now rewrite Hk.
Qed.

Lemma reachable_token_defined (w : World) :
  reachable w -> token (self w) <> None.
Proof.
  induction 1 as [own members | w m R IH | w ps R IH].
  - destruct (initialize_run own members) as (tk & rq & E & _).
    rewrite E. simpl. discriminate.
  - now apply keeps_token_run.
  - exact IH.
Qed.

(** C1 (as amended).  [initialize] on a freshly constructed lock whose
    registry holds other peers leaves the state [NO_TOKEN] and defines
    both mappings, with 0 for the own id and for every peer; with an
    empty registry it sets [TOKEN_PRESENT] and [token = {own_id: 0}].
    From then on the token mapping is defined in every reachable state,
    in particular whenever the state is [TOKEN_PRESENT] or
    [TOKEN_HELD]. *)
Theorem initialize_defines_token :
  (forall own members,
      members <> [] ->
      exists tk rq,
        initialize (new_world own members)
        = (Ret tt,
           mkWorld (mkLock own 0 (Some tk) rq NO_TOKEN)
                   (mkPeerList members 0) [EAcquire; ERelease])
        /\ (forall p, In p (own :: members) ->
                      Dict.get (KInt p) tk = Some (VInt 0) /\
                      Dict.get (KInt p) rq = Some 0)
        /\ (forall k, (forall p, In p (own :: members) -> k <> KInt p) ->
                      Dict.get k tk = None /\ Dict.get k rq = None)) /\
  (forall own,
      initialize (new_world own [])
      = (Ret tt,
         mkWorld (mkLock own 0 (Some [(KInt own, VInt 0)]) [(KInt own, 0)]
                         TOKEN_PRESENT)
                 (mkPeerList [] 0) [EAcquire; ERelease])) /\
  (forall w, reachable w -> token (self w) <> None) /\
  (forall w, reachable w ->
             state (self w) = TOKEN_PRESENT \/ state (self w) = TOKEN_HELD ->
             token (self w) <> None).
Proof.
  split; [| split; [| split]].
  - intros own members N.
    destruct (initialize_run own members) as (tk & rq & E & H).
    exists tk, rq. split; [| exact H].
    destruct members; [congruence | exact E].
  - reflexivity.
  - apply reachable_token_defined.
  - intros w R _. now apply reachable_token_defined.
Qed.

Lemma initialize_defines_token_witness :
  (exists tk rq,
      initialize (new_world 1 [2])
      = (Ret tt,
         mkWorld (mkLock 1 0 (Some tk) rq NO_TOKEN)
                 (mkPeerList [2] 0) [EAcquire; ERelease])
      /\ (forall p, In p [1; 2] ->
                    Dict.get (KInt p) tk = Some (VInt 0) /\
                    Dict.get (KInt p) rq = Some 0)
      /\ (forall k, (forall p, In p [1; 2] -> k <> KInt p) ->
                    Dict.get k tk = None /\ Dict.get k rq = None)) /\
  token (self ScenarioRepeatedRequest.asked_once) <> None.
Proof.
  destruct initialize_defines_token as (A & _ & C & _).
  split.
  - apply (A 1 [2]). discriminate.
  - apply (C ScenarioRepeatedRequest.asked_once).
    apply (reach_method _ (RequestToken ScenarioRepeatedRequest.up 0 2)).
    apply (reach_initialize 1 [2]).
Defined.

(** C1 as stated fails: after [initialize] with another peer in the
    registry the state is [NO_TOKEN] and the token mapping is defined. *)
Lemma initialize_with_peers_token_defined :
  reachable ScenarioRepeatedRequest.joined /\
  state (self ScenarioRepeatedRequest.joined) = NO_TOKEN /\
  token (self ScenarioRepeatedRequest.joined)
  = Some [(KInt 1, VInt 0); (KInt 2, VInt 0)] /\
  ~ (token (self ScenarioRepeatedRequest.joined) <> None <->
     state (self ScenarioRepeatedRequest.joined) = TOKEN_PRESENT \/
     state (self ScenarioRepeatedRequest.joined) = TOKEN_HELD).
Proof.
  split; [apply (reach_initialize 1 [2]) |].
  split; [reflexivity |]. split; [reflexivity |].
  intros [H _]. destruct H as [H | H]; [discriminate | |]; discriminate H.
Qed.

(** ** request_token *)

Lemma request_token_update_run (w : World) (t pid r : Z) :
  Dict.get (KInt pid) (request (self w)) = Some r ->
  request_token_update t pid w
  = (Ret tt,
     mkWorld
       (mkLock (owner_id (self w))
               (Z.max (time (self w) + 1) (t + 1))
               (token (self w))
               (Dict.set (KInt pid)
                         (Z.max r (Z.max (time (self w) + 1) (t + 1)))
                         (request (self w)))
               (state (self w)))
       (peer_list w)
       (trace w ++ [EAcquire; ERelease])).
Proof.
  intros Hr. destruct_world w.
  unfold request_token_update. unfold_prims. simpl. rewrite Hr. simpl.
  rewrite <- app_assoc. reflexivity.
Qed.

(** C8.  With [pid] in the domain of [request], [request_token] sets
    the clock to [max(clock + 1, req_time + 1)] and [request[pid]] to
    the maximum of its old value and the new clock, touching nothing
    else, and then runs [release()] exactly when the state is
    [TOKEN_PRESENT]. *)
Theorem request_token_spec (up : Z -> bool) (w : World) (t pid r : Z) :
  Dict.get (KInt pid) (request (self w)) = Some r ->
  let clock := Z.max (time (self w) + 1) (t + 1) in
  let updated :=
    mkWorld
      (mkLock (owner_id (self w)) clock (token (self w))
              (Dict.set (KInt pid) (Z.max r clock) (request (self w)))
              (state (self w)))
      (peer_list w)
      (trace w ++ [EAcquire; ERelease]) in
  request_token_update t pid w = (Ret tt, updated) /\
  Dict.get (KInt pid) (request (self updated)) = Some (Z.max r clock) /\
  (forall k, k <> KInt pid ->
             Dict.get k (request (self updated))
             = Dict.get k (request (self w))) /\
  request_token up t pid w
  = match state (self w) with
    | TOKEN_PRESENT => release up updated
    | _ => (Ret tt, updated)
    end.
Proof.
  intros Hr clock updated.
  pose proof (request_token_update_run w t pid r Hr) as E.
  fold clock in E. fold updated in E.
  split; [exact E |].
  split; [apply DictFacts.get_set_same |].
  split; [intros k N; simpl; now apply DictFacts.get_set_other |].
  unfold request_token. eapply bind_run; [exact E |].
  eapply bind_run; [reflexivity |]. simpl.
  destruct (state (self w)); reflexivity.
Qed.

Lemma request_token_spec_witness :
  request_token_update 0 2 ScenarioRepeatedRequest.joined
  = (Ret tt, ScenarioRepeatedRequest.asked_once) /\
  Dict.get (KInt 2) (request (self ScenarioRepeatedRequest.asked_once))
  = Some 1 /\
  request_token ScenarioRepeatedRequest.up 0 2 ScenarioRepeatedRequest.joined
  = (Ret tt, ScenarioRepeatedRequest.asked_once).
Proof.
  destruct (request_token_spec ScenarioRepeatedRequest.up
              ScenarioRepeatedRequest.joined 0 2 0 eq_refl)
    as (A & B & _ & D).
  split; [exact A |]. split; [exact B | exact D].
Defined.

(** *** [release] only removes entries of [request] *)

Lemma request_shrinks_frame : Frame request_shrinks.
Proof.
  split.
  - intros l k. now left.
  - intros a b c Hab Hbc k.
    destruct (Hbc k) as [E | E]; [rewrite E; apply Hab | now right].
Qed.

#[local] Existing Instance request_shrinks_frame.

Lemma request_shrinks_update (f : DistributedLock -> exn + DistributedLock) :
  (forall l l', f l = inr l' ->
                request l' = request l \/
                exists k, request l' = Dict.remove k (request l)) ->
  respects request_shrinks (update f).
Proof.
  intros H. apply respects_update. intros l l' E k.
  destruct (H l l' E) as [-> | [k' ->]]; [now left |].
  destruct (key_eq_dec k k') as [-> | N].
  - right. apply DictFacts.get_remove_same.
  - left. now apply DictFacts.get_remove_other.
Qed.

Ltac request_shrinks_prim :=
  unfold tick, assign_state, request_delitem, token_setitem, token_delitem,
    modify;
  repeat frame_step;
  apply request_shrinks_update; intros l l' E;
  repeat match type of E with
         | context [match ?x with _ => _ end] => destruct x
         | context [if ?b then _ else _] => destruct b
         end;
  inversion E; simpl; eauto.

Lemma request_shrinks_tick : respects request_shrinks tick.
Proof. request_shrinks_prim. Qed.

Lemma request_shrinks_assign_state s :
  respects request_shrinks (assign_state s).
Proof. request_shrinks_prim. Qed.

Lemma request_shrinks_request_delitem k :
  respects request_shrinks (request_delitem k).
Proof. request_shrinks_prim. Qed.

Lemma request_shrinks_token_setitem k v :
  respects request_shrinks (token_setitem k v).
Proof. request_shrinks_prim. Qed.

Lemma request_shrinks_token_delitem k :
  respects request_shrinks (token_delitem k).
Proof. request_shrinks_prim. Qed.

#[local] Hint Resolve request_shrinks_tick request_shrinks_assign_state
  request_shrinks_request_delitem request_shrinks_token_setitem
  request_shrinks_token_delitem : frames.

Lemma request_shrinks_release_loop up order :
  respects request_shrinks (release_loop up order).
Proof.
  induction order as [| p rest IH]; simpl; repeat (frame_step; eauto with frames).
Qed.

#[local] Hint Resolve request_shrinks_release_loop : frames.

Lemma request_shrinks_release up : respects request_shrinks (release up).
Proof. unfold release. repeat (frame_step; eauto with frames). Qed.

(** C3 (as amended).  [request_token(t, pid)] stores
    [max(request[pid], max(clock + 1, t + 1))] in [request[pid]]: the
    stored value never decreases, it is left unchanged exactly when it
    is already at least [max(clock + 1, t + 1)], and it is raised
    whenever it does not exceed the clock.  After the whole call the
    entry holds that value, unless the forwarding [release()] has
    removed it. *)
Theorem request_token_raises_request (up : Z -> bool) (w : World)
  (t pid r : Z) :
  Dict.get (KInt pid) (request (self w)) = Some r ->
  let clock := Z.max (time (self w) + 1) (t + 1) in
  Dict.get (KInt pid) (request (self (snd (request_token_update t pid w))))
  = Some (Z.max r clock) /\
  r <= Z.max r clock /\
  (Z.max r clock = r <-> clock <= r) /\
  (r <= time (self w) -> r < Z.max r clock) /\
  (Dict.get (KInt pid) (request (self (snd (request_token up t pid w))))
   = Some (Z.max r clock) \/
   Dict.get (KInt pid) (request (self (snd (request_token up t pid w))))
   = None).
Proof.
  intros Hr clock.
  destruct (request_token_spec up w t pid r Hr) as (E & G & _ & F).
  fold clock in E, G, F.
  split; [rewrite E; exact G |].
  split; [lia |]. split; [lia |]. split; [lia |].
  rewrite F. destruct (state (self w)); simpl; try (left; exact G).
  match goal with
  | |- context [release up ?u] =>
      destruct (request_shrinks_release up u (KInt pid)) as [S | S];
      [left; rewrite S; exact G | right; exact S]
  end.
Qed.

Lemma request_token_raises_request_witness :
  Dict.get (KInt 2)
           (request (self (snd (request_token_update
                                  0 2 ScenarioRepeatedRequest.asked_once))))
  = Some 2 /\
  1 < 2 /\
  Dict.get (KInt 2) (request (self ScenarioRepeatedRequest.asked_twice))
  = Some 2.
Proof.
  destruct (request_token_raises_request ScenarioRepeatedRequest.up
              ScenarioRepeatedRequest.asked_once 0 2 1 eq_refl)
    as (A & _ & _ & C & D).
  split; [exact A |]. split; [apply C; simpl; lia |].
  destruct D as [D | D]; [exact D | discriminate D].
Defined.

(** C3 as stated fails: peer 2 has asked with timestamp 0 and
    [request[2] = 1 > 0]; the same call again changes [request[2]]
    to 2. *)
Lemma request_token_not_idempotent :
  reachable ScenarioRepeatedRequest.asked_once /\
  Dict.get (KInt 2) (request (self ScenarioRepeatedRequest.asked_once))
  = Some 1 /\
  0 < 1 /\
  Dict.get (KInt 2)
           (request (self (snd (request_token
                                  ScenarioRepeatedRequest.up 0 2
                                  ScenarioRepeatedRequest.asked_once))))
  = Some 2 /\
  Dict.get (KInt 2)
           (request (self (snd (request_token
                                  ScenarioRepeatedRequest.up 0 2
                                  ScenarioRepeatedRequest.asked_once))))
  <> Dict.get (KInt 2) (request (self ScenarioRepeatedRequest.asked_once)).
Proof.
  split.
  { apply (reach_method _ (RequestToken ScenarioRepeatedRequest.up 0 2)).
    apply (reach_initialize 1 [2]). }
  split; [reflexivity |]. split; [lia |]. split; [reflexivity |].
  discriminate.
Qed.

(** ** release and destroy without a free monitor *)

(** C4.  [release()] called in state [NO_TOKEN] returns normally and
    changes only the clock, but it returns with the monitor acquired
    once more than on entry: the release of the monitor sits inside the
    branch for [TOKEN_PRESENT]. *)
Theorem release_without_token_keeps_monitor (up : Z -> bool) (w : World) :
  state (self w) = NO_TOKEN ->
  release up w
  = (Ret tt,
     mkWorld (set_time (time (self w) + 1) (self w))
             (mkPeerList (peers (peer_list w))
                         (S (lock_depth (peer_list w))))
             (trace w ++ [EAcquire])).
Proof.
  intros Hs. destruct_world w. subst st. reflexivity.
Qed.

Lemma release_without_token_keeps_monitor_witness :
  release ScenarioDeadClaimant.up (ScenarioDeadClaimant.lock_in NO_TOKEN)
  = (Ret tt,
     mkWorld
       (mkLock 1 3
               (Some [(KInt 1, VInt 0); (KInt 2, VInt 0); (KInt 3, VInt 0)])
               [(KInt 1, 0); (KInt 2, 1); (KInt 3, 0)]
               NO_TOKEN)
       (mkPeerList [2; 3] 1)
       [EAcquire]).
Proof.
  apply (release_without_token_keeps_monitor
           ScenarioDeadClaimant.up (ScenarioDeadClaimant.lock_in NO_TOKEN)).
  reflexivity.
Defined.

(** C6.  When the send to a claimant fails in [release], the handler
    removes the peer from [request], [token] and the registry without
    taking the monitor again (no [EAcquire] follows the failed call), and
    the final release of the monitor raises.  In [acquire] the handler
    does take the monitor first. *)
Theorem release_evicts_without_monitor :
  release ScenarioDeadClaimant.up
          (ScenarioDeadClaimant.lock_in TOKEN_PRESENT)
  = (Raise RuntimeError,
     mkWorld
       (mkLock 1 3 (Some [(KInt 1, VInt 0); (KInt 3, VInt 0)])
               [(KInt 1, 0); (KInt 3, 0)] TOKEN_PRESENT)
       (mkPeerList [3] 0)
       [EAcquire; ERelease;
        ECall 2 (CallObtainToken (ScenarioDeadClaimant.token_wire 0)) false;
        EDelRequest 2; EDelToken 2; EUnregister 2]) /\
  acquire ScenarioDeadClaimant.up (ScenarioDeadClaimant.lock_in NO_TOKEN)
  = (Blocked,
     mkWorld
       (mkLock 1 3 (Some [(KInt 1, VInt 0); (KInt 3, VInt 0)])
               [(KInt 1, 0); (KInt 3, 0)] NO_TOKEN)
       (mkPeerList [3] 1)
       [EAcquire; ERelease; ECall 2 (CallRequestToken 3 1) false;
        EAcquire; EDelRequest 2; EDelToken 2; EUnregister 2; ERelease;
        EAcquire; ERelease; ECall 3 (CallRequestToken 3 1) true;
        EAcquire; EWait]).
Proof. split; reflexivity. Qed.

(** C5.  [destroy()] in state [TOKEN_HELD] with a claimant that cannot
    be reached: the [release()] it runs first evicts the claimant and
    raises when it releases the monitor it no longer holds; the
    exception leaves [destroy], the state stays [TOKEN_PRESENT] and the
    token is never offered to peer 3, which can be reached. *)
Theorem destroy_dead_claimant_keeps_token :
  ScenarioDeadClaimant.up 3 = true /\
  destroy ScenarioDeadClaimant.up (ScenarioDeadClaimant.lock_in TOKEN_HELD)
  = (Raise RuntimeError,
     mkWorld
       (mkLock 1 4 (Some [(KInt 1, VInt 4); (KInt 3, VInt 0)])
               [(KInt 1, 0); (KInt 3, 0)] TOKEN_PRESENT)
       (mkPeerList [3] 0)
       [EAcquire; ERelease; EAcquire; ERelease;
        ECall 2 (CallObtainToken (ScenarioDeadClaimant.token_wire 4)) false;
        EDelRequest 2; EDelToken 2; EUnregister 2]).
Proof. split; reflexivity. Qed.

(** ** obtain_token *)

Lemma dict_update_items (items : list (pykey * pyval)) (acc : Dict.t pyval) :
  dict_update (map (fun kv => VList [val_of_key (fst kv); snd kv]) items) acc
  = inr (merged items acc).
Proof.
  revert acc. induction items as [| [k v] r IH]; intros acc; simpl.
  - reflexivity.
  - rewrite as_key_val_of_key. apply IH.
Qed.

Lemma unprepare_wire_of_pairs (pairs : list (Z * Z)) :
  _unprepare (wire_of_pairs pairs)
  = inr (Dict.of_items (items_of_pairs pairs)).
Proof.
  unfold _unprepare, py_dict, py_iter, wire_of_pairs.
  change (Dict.of_items (items_of_pairs pairs))
    with (merged (items_of_pairs pairs) Dict.empty).
  rewrite <- dict_update_items.
  unfold items_of_pairs. now rewrite map_map.
Qed.

Lemma wf_merged (items : list (pykey * pyval)) (acc : Dict.t pyval) :
  Dict.wf acc -> Dict.wf (merged items acc).
Proof.
  revert acc. induction items as [| [k v] r IH]; intros acc W; simpl; auto.
  apply IH. now apply DictFacts.wf_set.
Qed.

Lemma wf_dict_update (elems : list pyval) (acc d : Dict.t pyval) :
  Dict.wf acc -> dict_update elems acc = inr d -> Dict.wf d.
Proof.
  revert acc. induction elems as [| e r IH]; intros acc W E; simpl in E.
  - inversion E. now subst.
  - destruct (py_iter e) as [x | [| k [| v [| ? ?]]]]; try discriminate.
    destruct (as_key k) as [x | key]; [discriminate |].
    apply (IH (Dict.set key v acc)); [now apply DictFacts.wf_set | exact E].
Qed.

(** What [_unprepare] builds is a dict. *)
Lemma wf_unprepare (wire : pyval) (msg : Dict.t pyval) :
  _unprepare wire = inr msg -> Dict.wf msg.
Proof.
  unfold _unprepare, py_dict. intros E.
  assert (G : forall elems, dict_update elems Dict.empty = inr msg ->
                            Dict.wf msg).
  { intros elems. apply wf_dict_update. constructor. }
  destruct wire; simpl in E; try discriminate; try (eapply G; exact E).
  inversion E. apply DictFacts.wf_of_items.
Qed.

Lemma merged_get_other (items : list (pykey * pyval)) (tk : Dict.t pyval)
  (k : pykey) :
  ~ In k (Dict.keys items) -> Dict.get k (merged items tk) = Dict.get k tk.
Proof.
  revert tk. induction items as [| [k0 v0] r IH]; intros tk N; simpl; auto.
  simpl in N. rewrite IH by tauto.
  apply DictFacts.get_set_other. intuition congruence.
Qed.

Lemma merged_get_in (items : list (pykey * pyval)) (tk : Dict.t pyval)
  (k : pykey) (v : pyval) :
  Dict.wf items -> In (k, v) items -> Dict.get k (merged items tk) = Some v.
Proof.
  unfold Dict.wf.
  revert tk. induction items as [| [k0 v0] r IH]; intros tk W H; simpl.
  - destruct H.
  - simpl in W. inversion W as [| ? ? N W']; subst.
    destruct H as [H | H].
    + inversion H; subst. rewrite merged_get_other by exact N.
      apply DictFacts.get_set_same.
    + now apply IH.
Qed.

Lemma clock_after_le (items : list (pykey * pyval)) (c : Z) :
  c <= clock_after items c.
Proof.
  revert c. induction items as [| [k v] r IH]; intros c; simpl; [lia |].
  destruct v; simpl; try apply IH.
  specialize (IH (Z.max c (z + 1))). lia.
Qed.

Lemma clock_after_gt (items : list (pykey * pyval)) (c : Z) (k : pykey)
  (z : Z) :
  In (k, VInt z) items -> z < clock_after items c.
Proof.
  revert c. induction items as [| [k0 v0] r IH]; intros c H; simpl.
  - destruct H.
  - destruct H as [H | H].
    + inversion H; subst. simpl.
      pose proof (clock_after_le r (Z.max c (z + 1))). lia.
    + now apply IH.
Qed.

(** The loop of [obtain_token] over entries with integer timestamps. *)
Lemma obtain_loop_ints (done rest : list (pykey * pyval))
  (l : DistributedLock) (pl : PeerList) (tr : list event)
  (tk : Dict.t pyval) :
  token l = Some tk ->
  Forall (fun kv => is_int (snd kv)) done ->
  obtain_loop (done ++ rest) (mkWorld l pl tr)
  = obtain_loop rest
      (mkWorld (mkLock (owner_id l) (clock_after done (time l))
                       (Some (merged done tk)) (request l) (state l))
               pl tr).
Proof.
  revert l tk. induction done as [| [k v] r IH]; intros l tk Ht F; simpl.
  - destruct l; simpl in *; now subst.
  - inversion F as [| ? ? [z Hz] F']; subst. simpl in Hz. subst v.
    unfold_prims. simpl. rewrite Ht. simpl.
    rewrite (IH (set_time (Z.max (time l) (z + 1))
                          (set_token (Some (Dict.set k (VInt z) tk)) l))
                (Dict.set k (VInt z) tk) eq_refl F').
    reflexivity.
Qed.

(** The loop stops at the first entry whose timestamp is not an
    integer, after storing that entry. *)
Lemma obtain_loop_stops (k : pykey) (v : pyval) (rest : list (pykey * pyval))
  (l : DistributedLock) (pl : PeerList) (tr : list event)
  (tk : Dict.t pyval) :
  token l = Some tk ->
  ~ is_int v ->
  obtain_loop ((k, v) :: rest) (mkWorld l pl tr)
  = (Raise TypeError,
     mkWorld (set_token (Some (Dict.set k v tk)) l) pl tr).
Proof.
  intros Ht N. simpl. unfold_prims. simpl. rewrite Ht. simpl.
  destruct v; simpl; try reflexivity. exfalso. apply N. now exists z.
Qed.

(** The loop never suspends the thread and touches only the token and
    the clock, which does not go back. *)
Lemma obtain_loop_frame (items : list (pykey * pyval)) (w : World) :
  exists o l',
    obtain_loop items w = (o, mkWorld l' (peer_list w) (trace w)) /\
    o <> Blocked /\
    owner_id l' = owner_id (self w) /\
    request l' = request (self w) /\
    state l' = state (self w) /\
    time (self w) <= time l'.
Proof.
  revert w. induction items as [| [k v] r IH]; intros w.
  - exists (Ret tt), (self w). destruct w. simpl.
    repeat split; try reflexivity; try discriminate; lia.
  - simpl. unfold_prims.
    destruct (token (self w)) as [tk |] eqn:Ht.
    + destruct (py_succ v) as [e | n] eqn:Ev; simpl.
      * exists (Raise e), (set_token (Some (Dict.set k v tk)) (self w)).
        simpl. repeat split; try reflexivity; try discriminate; lia.
      * match goal with
        | |- context [obtain_loop r ?w0] =>
            destruct (IH w0) as (o & l' & E & Ho & H1 & H2 & H3 & H4)
        end.
        simpl in *. exists o, l'. rewrite E.
        repeat split; auto; lia.
    + exists (Raise TypeError), (self w). destruct w. simpl.
      repeat split; try reflexivity; try discriminate; lia.
Qed.

Lemma NoDup_map_KInt (l : list Z) : NoDup l -> NoDup (map KInt l).
Proof.
  induction 1 as [| a l N W IH]; simpl; constructor; auto.
  rewrite in_map_iff. intros (b & E & Hb). inversion E. now subst.
Qed.

Lemma get_some_in {V} (k : pykey) (v : V) (d : Dict.t V) :
  Dict.get k d = Some v -> In (k, v) d.
Proof.
  induction d as [| [k0 v0] r IH]; simpl; [discriminate |].
  destruct (key_eqb k k0) eqn:Ek; intros H.
  - apply key_eqb_eq in Ek. inversion H. subst. now left.
  - right. now apply IH.
Qed.

Lemma try_except_swallow (m : M unit) (w w' : World) (o : outcome unit) :
  m w = (o, w') -> o <> Blocked ->
  try_except m (fun _ => ret tt) w = (Ret tt, w').
Proof.
  intros E N. unfold try_except. rewrite E.
  destruct o as [[] | e |]; [reflexivity | reflexivity | congruence].
Qed.

(** [obtain_token] in terms of its merge loop: whatever the loop does,
    the method returns normally in state [TOKEN_PRESENT], having
    notified the waiters and released the monitor. *)
Lemma obtain_token_run (wire : pyval) (w : World) :
  exists l',
    obtain_token wire w
    = (Ret tt,
       mkWorld (set_state TOKEN_PRESENT l') (peer_list w)
               (trace w ++ [EAcquire; ENotifyAll; ERelease])) /\
    match _unprepare wire with
    | inl _ => l' = self (obtain_start w)
    | inr msg =>
        exists o,
          o <> Blocked /\
          obtain_loop (Dict.items msg) (obtain_start w)
          = (o, mkWorld l' (peer_list (obtain_start w))
                        (trace (obtain_start w)))
    end /\
    owner_id l' = owner_id (self w) /\
    request l' = request (self w) /\
    time (self w) + 1 <= time l'.
Proof.
  assert (Fin : forall l',
             (assign_state TOKEN_PRESENT ;; lock_notify_all ;; lock_release)
               (mkWorld l' (peer_list (obtain_start w))
                        (trace (obtain_start w)))
             = (Ret tt,
                mkWorld (set_state TOKEN_PRESENT l') (peer_list w)
                        (trace w ++ [EAcquire; ENotifyAll; ERelease]))).
  { intros l'. destruct_world w. unfold_prims. simpl.
    rewrite <- !app_assoc. reflexivity. }
  destruct (_unprepare wire) as [e | msg] eqn:Eu.
  - exists (self (obtain_start w)).
    split; [| split; [reflexivity |]].
    + unfold obtain_token.
      eapply bind_run; [reflexivity |].
      eapply bind_run; [reflexivity |].
      eapply try_finally_run; [| apply Fin].
      rewrite Eu. reflexivity.
    + simpl. split; [reflexivity |]. split; [reflexivity | lia].
  - destruct (obtain_loop_frame (Dict.items msg) (obtain_start w))
      as (o & l' & E & Ho & H1 & H2 & H3 & H4).
    exists l'. split; [| split; [exists o; split; assumption |]].
    + unfold obtain_token.
      eapply bind_run; [reflexivity |].
      eapply bind_run; [reflexivity |].
      eapply try_finally_run; [| apply Fin].
      apply try_except_swallow with (o := o); [| exact Ho].
      rewrite Eu. exact E.
    + simpl in H1, H2, H4. repeat split; assumption.
Qed.

(** C10.  For every payload and every lock, [obtain_token] returns
    normally: it ends by setting the state to [TOKEN_PRESENT],
    notifying all waiters and releasing the monitor, whether or not the
    merge raised.  When the merge fails at an entry whose timestamp is
    not an integer, the entries before it are in the token mapping and
    the clock exceeds their timestamps. *)
Theorem obtain_token_total (wire : pyval) (w : World) :
  exists l',
    obtain_token wire w
    = (Ret tt,
       mkWorld l' (peer_list w)
               (trace w ++ [EAcquire; ENotifyAll; ERelease])) /\
    state l' = TOKEN_PRESENT /\
    owner_id l' = owner_id (self w) /\
    request l' = request (self w) /\
    time (self w) + 1 <= time l' /\
    (forall msg tk done k v rest,
        _unprepare wire = inr msg ->
        token (self w) = Some tk ->
        Dict.items msg = done ++ (k, v) :: rest ->
        Forall (fun kv => is_int (snd kv)) done ->
        ~ is_int v ->
        token l' = Some (Dict.set k v (merged done tk)) /\
        time l' = clock_after done (time (self w) + 1) /\
        (forall k' v', In (k', v') done ->
                       Dict.get k' (Dict.set k v (merged done tk)) = Some v' /\
                       (forall z, v' = VInt z -> z < time l'))).
Proof.
  destruct (obtain_token_run wire w) as (l' & E & Hm & H1 & H2 & H3).
  exists (set_state TOKEN_PRESENT l'). split; [exact E |].
  repeat (split; [assumption || reflexivity |]).
  intros msg tk done k v rest Eu Ht Ed F N.
  rewrite Eu in Hm. destruct Hm as (o & _ & El).
  pose proof (wf_unprepare wire msg Eu) as W.
  rewrite Ed in El. unfold obtain_start in El.
  rewrite (obtain_loop_ints done ((k, v) :: rest)
             (set_time (time (self w) + 1) (self w)) _ _ tk Ht F) in El.
  erewrite (obtain_loop_stops k v rest) in El; [| reflexivity | exact N].
  inversion El as [[Eo El']]. simpl.
  split; [reflexivity |]. split; [reflexivity |].
  intros k' v' Hin.
  unfold Dict.items in Ed. unfold Dict.wf, Dict.keys in W.
  rewrite Ed, map_app in W. simpl in W.
  assert (Wd : Dict.wf done) by (now apply NoDup_app_remove_r in W).
  assert (Nk : k' <> k).
  { intros ->. apply NoDup_remove_2 in W. apply W.
    rewrite in_app_iff. left. change k with (fst (k, v')).
    now apply in_map. }
  split.
  - rewrite DictFacts.get_set_other by exact Nk.
    now apply merged_get_in.
  - intros z ->. now apply clock_after_gt with (k := k').
Qed.

(** A payload whose second entry carries a string: the first entry is
    merged, the second is stored, the third is not reached. *)
Lemma obtain_token_total_witness :
  exists l',
    obtain_token
      (VList [VList [VInt 1; VInt 5]; VList [VInt 2; VStr "x"];
              VList [VInt 3; VInt 9]])
      ScenarioRepeatedRequest.asked_once
    = (Ret tt,
       mkWorld l' (mkPeerList [2] 0)
               [EAcquire; ERelease; EAcquire; ERelease;
                EAcquire; ENotifyAll; ERelease]) /\
    state l' = TOKEN_PRESENT /\
    token l' = Some [(KInt 1, VInt 5); (KInt 2, VStr "x")] /\
    time l' = 6.
Proof.
  destruct (obtain_token_total
              (VList [VList [VInt 1; VInt 5]; VList [VInt 2; VStr "x"];
                      VList [VInt 3; VInt 9]])
              ScenarioRepeatedRequest.asked_once)
    as (l' & E & Hs & _ & _ & _ & Hm).
  destruct (Hm [(KInt 1, VInt 5); (KInt 2, VStr "x"); (KInt 3, VInt 9)]
               [(KInt 1, VInt 0); (KInt 2, VInt 0)]
               [(KInt 1, VInt 5)] (KInt 2) (VStr "x") [(KInt 3, VInt 9)])
    as (Ht & Hc & _).
  - reflexivity.
  - reflexivity.
  - reflexivity.
  - repeat constructor. now exists 5.
  - intros [z Hz]. discriminate Hz.
  - exists l'. split; [exact E |]. split; [exact Hs |].
    split; [exact Ht | exact Hc].
Defined.

(** C7.  For a serialized token, a sequence of entries [[p, t]], on a
    lock whose token mapping is defined: [obtain_token] returns in state
    [TOKEN_PRESENT]; the local [token[p]] is [t] for every pair of the
    mapping the entries denote, which are the entries themselves when
    their keys are distinct; and the clock, incremented first, is above
    every such [t]. *)
Theorem obtain_token_merges (w : World) (tk : Dict.t pyval)
  (pairs : list (Z * Z)) :
  token (self w) = Some tk ->
  exists l' tk',
    obtain_token (wire_of_pairs pairs) w
    = (Ret tt,
       mkWorld l' (peer_list w)
               (trace w ++ [EAcquire; ENotifyAll; ERelease])) /\
    state l' = TOKEN_PRESENT /\
    token l' = Some tk' /\
    time (self w) + 1 <= time l' /\
    (forall p t,
        Dict.get (KInt p) (Dict.of_items (items_of_pairs pairs))
        = Some (VInt t) ->
        Dict.get (KInt p) tk' = Some (VInt t) /\ t < time l') /\
    (NoDup (map fst pairs) ->
     forall p t, In (p, t) pairs ->
                 Dict.get (KInt p) tk' = Some (VInt t) /\ t < time l').
Proof.
  intros Ht.
  destruct (obtain_token_run (wire_of_pairs pairs) w)
    as (l' & E & Hm & H1 & H2 & H3).
  rewrite unprepare_wire_of_pairs in Hm. destruct Hm as (o & _ & El).
  set (msg := Dict.of_items (items_of_pairs pairs)) in *.
  assert (W : Dict.wf msg) by apply DictFacts.wf_of_items.
  assert (F : Forall (fun kv => is_int (snd kv)) msg).
  { unfold msg, Dict.of_items.
    assert (G : forall items acc,
               Forall (fun kv : pykey * pyval => is_int (snd kv)) items ->
               Forall (fun kv : pykey * pyval => is_int (snd kv)) acc ->
               Forall (fun kv : pykey * pyval => is_int (snd kv))
                      (fold_left (fun d kv => Dict.set (fst kv) (snd kv) d)
                                 items acc)).
    { induction items as [| [k v] r IH]; intros acc Fi Fa; simpl; auto.
      inversion Fi; subst. apply IH; auto.
      clear - Fa H4. induction acc as [| [k0 v0] a IHa]; simpl.
      - now constructor.
      - inversion Fa; subst. destruct (key_eqb k k0); constructor; auto. }
    apply G; [| constructor].
    unfold items_of_pairs. rewrite Forall_map. apply Forall_forall.
    intros [p t] _. now exists t. }
  unfold Dict.items in El. rewrite <- (app_nil_r msg) in El.
  unfold obtain_start in El.
  rewrite (obtain_loop_ints msg []
             (set_time (time (self w) + 1) (self w)) _ _ tk Ht F) in El.
  simpl in El. inversion El as [[Eo El']].
  exists (set_state TOKEN_PRESENT l'), (merged msg tk).
  split; [exact E |]. split; [reflexivity |].
  split; [subst l'; reflexivity |].
  split; [exact H3 |].
  assert (G : forall p t, In (KInt p, VInt t) msg ->
                          Dict.get (KInt p) (merged msg tk) = Some (VInt t) /\
                          t < time (set_state TOKEN_PRESENT l')).
  { intros p t Hin. split; [now apply merged_get_in |].
    subst l'. simpl. now apply clock_after_gt with (k := KInt p). }
  split.
  - intros p t Hg. apply G. now apply get_some_in.
  - intros ND p t Hin. apply G.
    assert (Em : msg = items_of_pairs pairs).
    { unfold msg, Dict.of_items.
      assert (Wp : Dict.wf (Dict.empty ++ items_of_pairs pairs)).
      { unfold Dict.wf, Dict.keys, items_of_pairs. simpl.
        rewrite map_map. simpl.
        rewrite <- (map_map fst KInt).
        now apply NoDup_map_KInt. }
      pose proof (dict_update_entries (items_of_pairs pairs) Dict.empty Wp)
        as D.
      rewrite dict_update_items in D. injection D as D'.
      exact D'. }
    rewrite Em. unfold items_of_pairs.
    change (KInt p, VInt t)
      with ((fun pt : Z * Z => (KInt (fst pt), VInt (snd pt))) (p, t)).
    now apply in_map.
Qed.

(** Peer 1, still in [NO_TOKEN], receives the token [{1: 4, 2: 7}]. *)
Lemma obtain_token_merges_witness :
  exists l' tk',
    obtain_token (wire_of_pairs [(1, 4); (2, 7)])
                 ScenarioRepeatedRequest.asked_once
    = (Ret tt,
       mkWorld l' (mkPeerList [2] 0)
               [EAcquire; ERelease; EAcquire; ERelease;
                EAcquire; ENotifyAll; ERelease]) /\
    state l' = TOKEN_PRESENT /\
    token l' = Some tk' /\
    (Dict.get (KInt 1) tk' = Some (VInt 4) /\ 4 < time l') /\
    (Dict.get (KInt 2) tk' = Some (VInt 7) /\ 7 < time l').
Proof.
  destruct (obtain_token_merges ScenarioRepeatedRequest.asked_once
              [(KInt 1, VInt 0); (KInt 2, VInt 0)] [(1, 4); (2, 7)] eq_refl)
    as (l' & tk' & E & Hs & Ht & _ & _ & Hp).
  assert (ND : NoDup (map fst [(1, 4); (2, 7)])).
  { simpl. repeat constructor; simpl; intuition lia. }
  exists l', tk'. split; [exact E |]. split; [exact Hs |].
  split; [exact Ht |]. split.
  - apply (Hp ND 1 4). simpl. auto.
  - apply (Hp ND 2 7). simpl. auto.
Defined.

(** ** Failed calls *)

Lemma mem_of_get {V} (k : pykey) (v : V) (d : Dict.t V) :
  Dict.get k d = Some v -> Dict.mem k d = true.
Proof. unfold Dict.mem. now intros ->. Qed.

(** A failed send in [release]: the claimant is removed from both
    mappings and from the registry while the monitor, released for the
    call, has not been taken again; the loop goes on in that state. *)
Lemma release_loop_failed_send (up : Z -> bool) (p : Z) (rest : list Z)
  (w : World) (tk : Dict.t pyval) (n : nat) :
  token (self w) = Some tk ->
  lock_depth (peer_list w) = S n ->
  claims (peers (peer_list w)) (request (self w)) tk p ->
  up p = false ->
  release_loop up (p :: rest) w
  = release_loop up rest
      (mkWorld (set_state TOKEN_PRESENT (without_peer p (self w)))
               (registry_without p (peer_list w) n)
               (trace w ++ [ERelease;
                            ECall p (CallObtainToken (wire_of tk)) false;
                            EDelRequest p; EDelToken p; EUnregister p])).
Proof.
  intros Ht Hd [Hm (r & t & Hr & Hk & Hlt)] Hup.
  destruct_world w. subst.
  simpl. unfold_prims. simpl.
  rewrite Hm; simpl; rewrite Hr; simpl; rewrite Hk; simpl.
  replace (t <? r) with true by (symmetry; apply Z.ltb_lt; lia).
  simpl. rewrite Hup. simpl.
  rewrite (mem_of_get _ _ _ Hr); simpl.
  rewrite (mem_of_get _ _ _ Hk); simpl.
  rewrite <- !app_assoc. reflexivity.
Qed.


(** ** destroy *)

(** [destroy]'s walk over peers that cannot be reached: nothing but the
    trace changes. *)
Lemma destroy_loop_unreachable (up : Z -> bool) (pre rest : list Z)
  (l : DistributedLock) (ps : list Z) (n : nat) (tr : list event)
  (tk : Dict.t pyval) :
  token l = Some tk ->
  (forall q, In q pre -> Z_mem q ps = true /\ up q = false) ->
  destroy_loop up (pre ++ rest) (mkWorld l (mkPeerList ps (S n)) tr)
  = destroy_loop up rest
      (mkWorld l (mkPeerList ps (S n))
               (tr ++ failed_offers (wire_of tk) pre)).
Proof.
  intros Ht. revert tr. induction pre as [| q pre IH]; intros tr H; simpl.
  - now rewrite app_nil_r.
  - destruct (H q (or_introl eq_refl)) as [Hm Hup].
    unfold_prims. simpl. rewrite Hm; simpl. rewrite Ht; simpl.
    rewrite Hup; simpl.
    rewrite IH by (intros q' Hq'; apply H; now right).
    rewrite <- !app_assoc. reflexivity.
Qed.

(** [destroy]'s offer to a peer that can be reached: the token is
    sent whatever the peer's request, and the walk stops. *)
Lemma destroy_loop_reachable (up : Z -> bool) (p : Z) (rest : list Z)
  (l : DistributedLock) (ps : list Z) (n : nat) (tr : list event)
  (tk : Dict.t pyval) :
  token l = Some tk ->
  Z_mem p ps = true ->
  up p = true ->
  destroy_loop up (p :: rest) (mkWorld l (mkPeerList ps (S n)) tr)
  = (Ret tt,
     mkWorld (set_state NO_TOKEN l) (mkPeerList ps (S n))
             (tr ++ [ERelease; ECall p (CallObtainToken (wire_of tk)) true;
                     EAcquire])).
Proof.
  intros Ht Hm Hup. simpl. unfold_prims. simpl.
  rewrite Hm; simpl. rewrite Ht; simpl. rewrite Hup; simpl.
  rewrite <- !app_assoc. reflexivity.
Qed.

Lemma order_of_registered (own : Z) (ps : list Z) (q : Z) :
  In q (order_of own ps) -> Z_mem q ps = true.
Proof.
  intros H. apply order_of_in in H. destruct H as [H _].
  unfold Z_mem. apply existsb_exists. exists q. split; [exact H |].
  apply Z.eqb_refl.
Qed.

(** X29.  [destroy] by a peer that has the token when no peer has an
    outstanding request: the [release()] it runs first forwards
    nothing, and the walk that follows hands the token to the first
    peer of the hand-off order that can be reached, whatever that
    peer's request, evicting nobody. *)
Lemma destroy_hands_to_first_reachable (up : Z -> bool) (w : World)
  (tk : Dict.t pyval) (pre post : list Z) (p : Z) :
  state (self w) <> NO_TOKEN ->
  token (self w) = Some tk ->
  lock_depth (peer_list w) = 0%nat ->
  (forall q, In q (order_of (owner_id (self w)) (peers (peer_list w))) ->
             satisfied (peers (peer_list w)) (request (self w)) tk q) ->
  order_of (owner_id (self w)) (peers (peer_list w)) = pre ++ p :: post ->
  (forall q, In q pre -> up q = false) ->
  up p = true ->
  let tk' :=
    match state (self w) with
    | TOKEN_HELD =>
        Dict.set (KInt (owner_id (self w))) (VInt (time (self w) + 2)) tk
    | _ => tk
    end in
  destroy up w
  = (Ret tt,
     mkWorld (mkLock (owner_id (self w)) (time (self w) + 2) (Some tk')
                     (request (self w)) NO_TOKEN)
             (peer_list w)
             (trace w ++ [EAcquire; ERelease; EAcquire; ERelease; EAcquire]
                ++ failed_offers (wire_of tk') pre
                ++ [ERelease; ECall p (CallObtainToken (wire_of tk')) true;
                    EAcquire; ERelease])).
Proof.
  intros Hs Ht Hd Hsat Ho Hpre Hup tk'.
  assert (Hreg : forall q, In q (pre ++ p :: post) ->
                           Z_mem q (peers (peer_list w)) = true).
  { intros q Hq. rewrite <- Ho in Hq. now apply order_of_registered in Hq. }
  assert (Hne : forall q, In q (pre ++ p :: post) ->
                          KInt q <> KInt (owner_id (self w))).
  { intros q Hq. rewrite <- Ho in Hq. apply order_of_in in Hq.
    apply key_int_neq. tauto. }
  destruct_world w. subst tok depth.
  assert (Hsat' : forall q, In q (pre ++ p :: post) -> satisfied ps rq tk' q).
  { intros q Hq. rewrite <- Ho in Hq.
    destruct (Hsat q Hq) as [Hm (r & t & Hr & Hk & Hle)].
    split; [exact Hm |]. exists r, t. repeat split; auto.
    unfold tk'. destruct st; auto.
    rewrite DictFacts.get_set_other; auto. apply Hne. now rewrite <- Ho. }
  assert (R : forall w0,
             token (self w0) = Some tk' ->
             peers (peer_list w0) = ps -> request (self w0) = rq ->
             release_loop up (pre ++ p :: post) w0 = (Ret tt, w0)).
  { intros w0 H1 H2 H3. apply release_loop_nobody with (tk := tk'); auto.
    now rewrite H2, H3. }
  assert (D : forall l tr0,
             token l = Some tk' ->
             destroy_loop up (pre ++ p :: post)
                          (mkWorld l (mkPeerList ps 1) tr0)
             = (Ret tt,
                mkWorld (set_state NO_TOKEN l) (mkPeerList ps 1)
                        ((tr0 ++ failed_offers (wire_of tk') pre)
                           ++ [ERelease;
                               ECall p (CallObtainToken (wire_of tk')) true;
                               EAcquire]))).
  { intros l tr0 Hl.
    rewrite (destroy_loop_unreachable up pre (p :: post) l ps 0 tr0 tk' Hl).
    - apply destroy_loop_reachable; auto.
      apply Hreg. rewrite in_app_iff. right. now left.
    - intros q Hq. split; [| now apply Hpre].
      apply Hreg. rewrite in_app_iff. now left. }
  unfold destroy, release. unfold_prims. simpl.
  destruct st; [congruence | |]; simpl;
    replace (tm + 1 + 1) with (tm + 2) by lia; rewrite Ho;
    (rewrite R by reflexivity); simpl; rewrite Ho;
    (rewrite D by reflexivity); simpl;
    rewrite <- !app_assoc; reflexivity.
Qed.

(** * Further properties of the lock *)

(** ** The clock *)

Lemma clock_grows_frame : Frame clock_grows.
Proof.
  split; unfold clock_grows.
  - intros l. lia.
  - intros a b c. lia.
Qed.

#[local] Existing Instance clock_grows_frame.

Ltac split_update E :=
  repeat match type of E with
         | context [match ?x with _ => _ end] => destruct x
         | context [if ?b then _ else _] => destruct b
         end;
  inversion E; subst; clear E.

Ltac clock_grows_tac :=
  repeat first
    [ frame_step
    | solve [eauto with frames]
    | apply respects_update;
      let l := fresh "l" in
      let l' := fresh "l'" in
      let E := fresh "E" in
      intros l l' E; unfold clock_grows; split_update E; simpl; lia ].

Lemma clock_grows_release_loop up order :
  respects clock_grows (release_loop up order).
Proof. induction order as [| p rest IH]; simpl; clock_grows_tac. Qed.

Lemma clock_grows_initialize_loop ps :
  respects clock_grows (initialize_loop ps).
Proof. induction ps as [| p rest IH]; simpl; clock_grows_tac. Qed.

Lemma clock_grows_obtain_loop items :
  respects clock_grows (obtain_loop items).
Proof. induction items as [| [k v] rest IH]; simpl; clock_grows_tac. Qed.

Lemma clock_grows_destroy_loop up order :
  respects clock_grows (destroy_loop up order).
Proof. induction order as [| p rest IH]; simpl; clock_grows_tac. Qed.

Lemma clock_grows_acquire_loop up ps :
  respects clock_grows (acquire_loop up ps).
Proof. induction ps as [| p rest IH]; simpl; clock_grows_tac. Qed.

#[local] Hint Resolve clock_grows_release_loop clock_grows_initialize_loop
  clock_grows_obtain_loop clock_grows_destroy_loop clock_grows_acquire_loop
  : frames.

Lemma clock_grows_run (m : method) : respects clock_grows (run m).
Proof. destruct m; simpl; clock_grows_tac. Qed.

(** After [lock.acquire()] and [self.time += 1] the clock is ahead by one,
    and stays so if the rest of the method does not set it back. *)
Lemma tick_then_rest (rest : M unit) (w : World) :
  respects clock_grows rest ->
  time (self w) + 1 <= time (self (snd ((lock_acquire ;; tick ;; rest) w))).
Proof.
  intros R. unfold bind at 1. simpl. unfold bind at 1. simpl.
  match goal with
  | |- context [rest ?w0] => specialize (R w0)
  end.
  unfold clock_grows in R. simpl in R. exact R.
Qed.

(** X1.  No public method, whether it returns, raises or blocks, sets
    the clock back; and every method but [initialize], [display_status]
    and the resumption of a waiting [acquire] advances it by one at
    least. *)
Theorem clock_advances (m : method) (w : World) :
  time (self w) + (if ticks m then 1 else 0)
  <= time (self (snd (run m w))).
Proof.
  destruct m; simpl.
  - rewrite Z.add_0_r. apply (clock_grows_run Initialize).
  - apply tick_then_rest. clock_grows_tac.
  - apply tick_then_rest. clock_grows_tac.
  - apply tick_then_rest. clock_grows_tac.
  - apply tick_then_rest. clock_grows_tac.
  - rewrite Z.add_0_r. apply (clock_grows_run AcquireResume).
  - apply tick_then_rest. clock_grows_tac.
  - unfold request_token, request_token_update.
    unfold bind at 1. unfold bind at 1. simpl. unfold bind at 1. simpl.
    match goal with
    | |- context [bind (request_getitem pid) ?k ?w0] =>
        assert (R : respects clock_grows (bind (request_getitem pid) k))
          by clock_grows_tac;
        specialize (R w0);
        destruct (bind (request_getitem pid) k w0) as [[[] | e |] w1]
    end; unfold clock_grows in R; simpl in R |- *; try lia.
    match goal with
    | |- context [bind (gets state) ?k w1] =>
        assert (R' : respects clock_grows (bind (gets state) k))
          by clock_grows_tac;
        specialize (R' w1)
    end.
    unfold clock_grows in R'. lia.
  - apply tick_then_rest. clock_grows_tac.
  - rewrite Z.add_0_r. apply (clock_grows_run DisplayStatus).
Qed.

(** ** Requests never run ahead of the clock *)

Lemma keeps_requests_behind_frame : Frame keeps_requests_behind.
Proof.
  split; unfold keeps_requests_behind; auto.
Qed.

#[local] Existing Instance keeps_requests_behind_frame.

Lemma get_remove_some {V} (k k' : pykey) (v : V) (d : Dict.t V) :
  Dict.get k (Dict.remove k' d) = Some v -> Dict.get k d = Some v.
Proof.
  destruct (key_eq_dec k k') as [-> | N].
  - now rewrite DictFacts.get_remove_same.
  - now rewrite DictFacts.get_remove_other.
Qed.

Lemma get_set_some {V} (k k' : pykey) (v v' : V) (d : Dict.t V) :
  Dict.get k (Dict.set k' v' d) = Some v ->
  v = v' \/ Dict.get k d = Some v.
Proof.
  destruct (key_eq_dec k k') as [-> | N].
  - rewrite DictFacts.get_set_same. intros E. left. congruence.
  - rewrite DictFacts.get_set_other by exact N. now right.
Qed.

Ltac requests_behind_update :=
  apply respects_update;
  let l := fresh "l" in
  let l' := fresh "l'" in
  let E := fresh "E" in
  let H0 := fresh "H0" in
  let H := fresh "H" in
  let k := fresh "k" in
  let v := fresh "v" in
  let G := fresh "G" in
  intros l l' E [H0 H]; split_update E; split; simpl;
  try lia;
  intros k v G;
  try (apply get_remove_some in G);
  try (apply get_set_some in G; destruct G as [-> | G]; [lia |]);
  specialize (H k v G); lia.

Ltac requests_behind_tac :=
  repeat first
    [ solve [auto with frames]
    | frame_step
    | requests_behind_update ].

Lemma requests_behind_release_loop up order :
  respects keeps_requests_behind (release_loop up order).
Proof. induction order as [| p rest IH]; simpl; requests_behind_tac. Qed.

Lemma requests_behind_initialize_loop ps :
  respects keeps_requests_behind (initialize_loop ps).
Proof. induction ps as [| p rest IH]; simpl; requests_behind_tac. Qed.

Lemma requests_behind_obtain_loop items :
  respects keeps_requests_behind (obtain_loop items).
Proof. induction items as [| [k v] rest IH]; simpl; requests_behind_tac. Qed.

Lemma requests_behind_destroy_loop up order :
  respects keeps_requests_behind (destroy_loop up order).
Proof. induction order as [| p rest IH]; simpl; requests_behind_tac. Qed.

Lemma requests_behind_acquire_loop up ps :
  respects keeps_requests_behind (acquire_loop up ps).
Proof. induction ps as [| p rest IH]; simpl; requests_behind_tac. Qed.

#[local] Hint Resolve requests_behind_release_loop
  requests_behind_initialize_loop requests_behind_obtain_loop
  requests_behind_destroy_loop requests_behind_acquire_loop : frames.

Lemma request_token_update_unknown (w : World) (t pid : Z) :
  Dict.get (KInt pid) (request (self w)) = None ->
  request_token_update t pid w
  = (Raise KeyError,
     mkWorld (set_time (Z.max (time (self w) + 1) (t + 1)) (self w))
             (mkPeerList (peers (peer_list w))
                         (S (lock_depth (peer_list w))))
             (trace w ++ [EAcquire])).
Proof.
  intros Hr. destruct_world w.
  unfold request_token_update. unfold_prims. simpl. rewrite Hr. reflexivity.
Qed.

Lemma requests_behind_request_token_update t pid :
  respects keeps_requests_behind (request_token_update t pid).
Proof.
  intros w [H0 H].
  destruct (Dict.get (KInt pid) (request (self w))) as [r |] eqn:Hr.
  - rewrite (request_token_update_run w t pid r Hr).
    split; cbn [snd self time request]; [lia |].
    intros k v G. apply get_set_some in G.
    pose proof (H (KInt pid) r Hr) as Hpid.
    destruct G as [-> | G]; [lia |]. specialize (H k v G). lia.
  - rewrite (request_token_update_unknown w t pid Hr).
    split; cbn [snd self time request set_time]; [lia |].
    intros k v G. specialize (H k v G). lia.
Qed.

#[local] Hint Resolve requests_behind_request_token_update : frames.

Lemma requests_behind_run (m : method) :
  respects keeps_requests_behind (run m).
Proof.
  destruct m; simpl; requests_behind_tac.
Qed.

(** X2.  In every state a peer can reach, the clock is not negative and
    every entry of [request] is at most the clock. *)
Theorem reachable_requests_behind_clock (w : World) :
  reachable w ->
  0 <= time (self w) /\
  forall k v, Dict.get k (request (self w)) = Some v -> v <= time (self w).
Proof.
  induction 1 as [own members | w m R IH | w ps R IH].
  - apply (requests_behind_run Initialize (new_world own members)).
    split; simpl; [lia | discriminate].
  - now apply requests_behind_run.
  - exact IH.
Qed.

Lemma reachable_requests_behind_clock_witness :
  0 <= time (self ScenarioRepeatedRequest.asked_twice) /\
  forall k v,
    Dict.get k (request (self ScenarioRepeatedRequest.asked_twice)) = Some v ->
    v <= time (self ScenarioRepeatedRequest.asked_twice).
Proof.
  apply (reachable_requests_behind_clock ScenarioRepeatedRequest.asked_twice).
  apply (reach_method _ (RequestToken ScenarioRepeatedRequest.up 0 2)).
  apply (reach_method _ (RequestToken ScenarioRepeatedRequest.up 0 2)).
  apply (reach_initialize 1 [2]).
Defined.

(** X3.  Hence, in a reachable state, [request_token] for a peer in the
    domain of [request] always moves the peer's entry: the update step
    stores the new clock, which is above the old entry and above the
    timestamp received. *)
Theorem request_token_always_moves_request (w : World) (t pid r : Z) :
  reachable w ->
  Dict.get (KInt pid) (request (self w)) = Some r ->
  exists w',
    request_token_update t pid w = (Ret tt, w') /\
    Dict.get (KInt pid) (request (self w')) = Some (time (self w')) /\
    r < time (self w') /\
    t < time (self w').
Proof.
  intros R Hr.
  destruct (reachable_requests_behind_clock w R) as [_ H].
  specialize (H (KInt pid) r Hr).
  eexists. split; [apply (request_token_update_run w t pid r Hr) |].
  cbn [self time request]. rewrite DictFacts.get_set_same.
  split; [f_equal; lia |]. lia.
Qed.

Lemma request_token_always_moves_request_witness :
  exists w',
    request_token_update 0 2 ScenarioRepeatedRequest.asked_once
    = (Ret tt, w') /\
    Dict.get (KInt 2) (request (self w')) = Some (time (self w')) /\
    1 < time (self w') /\
    0 < time (self w').
Proof.
  apply (request_token_always_moves_request ScenarioRepeatedRequest.asked_once 0 2 1).
  - apply (reach_method _ (RequestToken ScenarioRepeatedRequest.up 0 2)).
    apply (reach_initialize 1 [2]).
  - reflexivity.
Defined.

(** ** register_peer and unregister_peer *)

Lemma remove_absent {V} (k : pykey) (d : Dict.t V) :
  Dict.get k d = None -> Dict.remove k d = d.
Proof.
  unfold Dict.remove. induction d as [| [k0 v0] r IH]; simpl; auto.
  destruct (key_eqb k k0) eqn:E; [discriminate |]. simpl.
  intros H. now rewrite IH.
Qed.

Lemma remove_set_fresh {V} (k : pykey) (v : V) (d : Dict.t V) :
  Dict.get k d = None -> Dict.remove k (Dict.set k v d) = d.
Proof.
  intros H. rewrite DictFacts.set_fresh by (now apply DictFacts.get_none_notin).
  unfold Dict.remove. rewrite filter_app. simpl. rewrite key_eqb_refl. simpl.
  rewrite app_nil_r. now apply remove_absent.
Qed.

(** X4.  On a lock whose token mapping is defined, [register_peer(pid)]
    returns with the monitor released and the clock advanced by one; it
    sets [request[pid]] and [token[pid]] to 0 whatever they were before
    and leaves every other entry, the state and the registry alone. *)
Theorem register_peer_resets (w : World) (tk : Dict.t pyval) (pid : Z) :
  token (self w) = Some tk ->
  exists l',
    register_peer pid w
    = (Ret tt, mkWorld l' (peer_list w) (trace w ++ [EAcquire; ERelease])) /\
    time l' = time (self w) + 1 /\
    state l' = state (self w) /\
    owner_id l' = owner_id (self w) /\
    Dict.get (KInt pid) (request l') = Some 0 /\
    (exists tk', token l' = Some tk' /\
                 Dict.get (KInt pid) tk' = Some (VInt 0) /\
                 forall k, k <> KInt pid -> Dict.get k tk' = Dict.get k tk) /\
    (forall k, k <> KInt pid ->
               Dict.get k (request l') = Dict.get k (request (self w))).
Proof.
  intros Ht. destruct_world w. subst tok.
  eexists. split.
  - unfold register_peer. unfold_prims. simpl. rewrite <- !app_assoc.
    reflexivity.
  - simpl. repeat split.
    + apply DictFacts.get_set_same.
    + eexists. split; [reflexivity |]. split.
      * apply DictFacts.get_set_same.
      * intros k N. now apply DictFacts.get_set_other.
    + intros k N. now apply DictFacts.get_set_other.
Qed.

Lemma register_peer_resets_witness :
  exists l',
    register_peer 2 ScenarioRepeatedRequest.asked_twice
    = (Ret tt,
       mkWorld l' (mkPeerList [2] 0)
               [EAcquire; ERelease; EAcquire; ERelease; EAcquire; ERelease;
                EAcquire; ERelease]) /\
    time l' = 3 /\
    Dict.get (KInt 2) (request (self ScenarioRepeatedRequest.asked_twice))
    = Some 2 /\
    Dict.get (KInt 2) (request l') = Some 0.
Proof.
  destruct (register_peer_resets ScenarioRepeatedRequest.asked_twice
              [(KInt 1, VInt 0); (KInt 2, VInt 0)] 2 eq_refl)
    as (l' & E & Htime & _ & _ & Hr & _).
  exists l'. split; [exact E |]. split; [exact Htime |].
  split; [reflexivity | exact Hr].
Defined.

(** X5.  Before [initialize] the token mapping is [None]:
    [register_peer(pid)] then raises [TypeError] after it has advanced
    the clock and stored [request[pid] = 0], and the monitor it took is
    not released. *)
Theorem register_peer_uninitialized (w : World) (pid : Z) :
  token (self w) = None ->
  register_peer pid w
  = (Raise TypeError,
     mkWorld (mkLock (owner_id (self w)) (time (self w) + 1) None
                     (Dict.set (KInt pid) 0 (request (self w)))
                     (state (self w)))
             (mkPeerList (peers (peer_list w))
                         (S (lock_depth (peer_list w))))
             (trace w ++ [EAcquire])).
Proof.
  intros Ht. destruct_world w. subst tok. reflexivity.
Qed.

Lemma register_peer_uninitialized_witness :
  register_peer 2 (new_world 1 [2])
  = (Raise TypeError,
     mkWorld (mkLock 1 1 None [(KInt 2, 0)] NO_TOKEN)
             (mkPeerList [2] 1) [EAcquire]).
Proof.
  apply (register_peer_uninitialized (new_world 1 [2]) 2). reflexivity.
Defined.

(** X6.  [unregister_peer(pid)] for a peer present in both mappings
    returns with the monitor released and the clock advanced by one;
    [pid] is in neither mapping afterwards and every other entry is as
    before. *)
Theorem unregister_peer_removes (w : World) (tk : Dict.t pyval)
  (pid r : Z) (v : pyval) :
  token (self w) = Some tk ->
  Dict.get (KInt pid) (request (self w)) = Some r ->
  Dict.get (KInt pid) tk = Some v ->
  exists rq' tk',
    unregister_peer pid w
    = (Ret tt,
       mkWorld (mkLock (owner_id (self w)) (time (self w) + 1) (Some tk') rq'
                       (state (self w)))
               (peer_list w)
               (trace w ++ [EAcquire; EDelRequest pid; EDelToken pid;
                            ERelease])) /\
    Dict.get (KInt pid) rq' = None /\
    Dict.get (KInt pid) tk' = None /\
    (forall k, k <> KInt pid ->
               Dict.get k rq' = Dict.get k (request (self w)) /\
               Dict.get k tk' = Dict.get k tk).
Proof.
  intros Ht Hr Hk. destruct_world w. subst tok.
  exists (Dict.remove (KInt pid) rq), (Dict.remove (KInt pid) tk). split.
  - unfold unregister_peer. unfold_prims. simpl.
    rewrite (mem_of_get _ _ _ Hr); simpl.
    rewrite (mem_of_get _ _ _ Hk); simpl.
    rewrite <- !app_assoc. reflexivity.
  - split; [apply DictFacts.get_remove_same |].
    split; [apply DictFacts.get_remove_same |].
    intros k N. split; now apply DictFacts.get_remove_other.
Qed.

Lemma unregister_peer_removes_witness :
  exists rq' tk',
    unregister_peer 2 ScenarioRepeatedRequest.asked_once
    = (Ret tt,
       mkWorld (mkLock 1 2 (Some tk') rq' NO_TOKEN) (mkPeerList [2] 0)
               [EAcquire; ERelease; EAcquire; ERelease;
                EAcquire; EDelRequest 2; EDelToken 2; ERelease]) /\
    Dict.get (KInt 2) rq' = None /\
    Dict.get (KInt 2) tk' = None.
Proof.
  destruct (unregister_peer_removes ScenarioRepeatedRequest.asked_once
              [(KInt 1, VInt 0); (KInt 2, VInt 0)] 2 1 (VInt 0)
              eq_refl eq_refl eq_refl)
    as (rq' & tk' & E & A & B & _).
  exists rq', tk'. split; [exact E |]. split; [exact A | exact B].
Defined.

(** X7.  [unregister_peer(pid)] for a peer that is not in [request]
    raises [KeyError]: the clock has advanced, both mappings are
    untouched, and the monitor taken on entry is still held. *)
Theorem unregister_peer_unknown (w : World) (pid : Z) :
  Dict.get (KInt pid) (request (self w)) = None ->
  unregister_peer pid w
  = (Raise KeyError,
     mkWorld (set_time (time (self w) + 1) (self w))
             (mkPeerList (peers (peer_list w))
                         (S (lock_depth (peer_list w))))
             (trace w ++ [EAcquire])).
Proof.
  intros Hr. destruct_world w.
  unfold unregister_peer. unfold_prims. simpl.
  unfold Dict.mem. rewrite Hr. reflexivity.
Qed.

Lemma unregister_peer_unknown_witness :
  unregister_peer 7 ScenarioRepeatedRequest.asked_once
  = (Raise KeyError,
     mkWorld (mkLock 1 2 (Some [(KInt 1, VInt 0); (KInt 2, VInt 0)])
                     [(KInt 1, 0); (KInt 2, 1)] NO_TOKEN)
             (mkPeerList [2] 1)
             [EAcquire; ERelease; EAcquire; ERelease; EAcquire]).
Proof.
  apply (unregister_peer_unknown ScenarioRepeatedRequest.asked_once 7).
  reflexivity.
Defined.

(** X8.  Registering a peer that is in neither mapping and then
    unregistering it gives back both mappings as they were, entry for
    entry and in the same order; only the clock has advanced, by two. *)
Theorem register_unregister_roundtrip (w : World) (tk : Dict.t pyval)
  (pid : Z) :
  token (self w) = Some tk ->
  Dict.get (KInt pid) (request (self w)) = None ->
  Dict.get (KInt pid) tk = None ->
  unregister_peer pid (snd (register_peer pid w))
  = (Ret tt,
     mkWorld (set_time (time (self w) + 2) (self w))
             (peer_list w)
             (trace w ++ [EAcquire; ERelease; EAcquire; EDelRequest pid;
                          EDelToken pid; ERelease])).
Proof.
  intros Ht Hr Hk. destruct_world w. subst tok.
  unfold register_peer, unregister_peer. unfold_prims. simpl.
  unfold Dict.mem.
  rewrite DictFacts.get_set_same; simpl.
  rewrite DictFacts.get_set_same; simpl.
  rewrite !remove_set_fresh by assumption.
  replace (tm + 1 + 1) with (tm + 2) by lia.
  rewrite <- !app_assoc. reflexivity.
Qed.

Lemma register_unregister_roundtrip_witness :
  unregister_peer 7 (snd (register_peer 7 ScenarioRepeatedRequest.asked_once))
  = (Ret tt,
     mkWorld (mkLock 1 3 (Some [(KInt 1, VInt 0); (KInt 2, VInt 0)])
                     [(KInt 1, 0); (KInt 2, 1)] NO_TOKEN)
             (mkPeerList [2] 0)
             [EAcquire; ERelease; EAcquire; ERelease; EAcquire; ERelease;
              EAcquire; EDelRequest 7; EDelToken 7; ERelease]).
Proof.
  apply (register_unregister_roundtrip ScenarioRepeatedRequest.asked_once
           [(KInt 1, VInt 0); (KInt 2, VInt 0)] 7);
    reflexivity.
Defined.

(** ** request_token for an unknown peer *)

(** X9.  [request_token(t, pid)] for a [pid] that is not in [request]
    raises [KeyError] to the remote caller: the clock has been advanced,
    [request] is untouched, [release()] is not attempted, and the monitor
    taken on entry is still held. *)
Theorem request_token_unknown_peer (up : Z -> bool) (w : World) (t pid : Z) :
  Dict.get (KInt pid) (request (self w)) = None ->
  request_token up t pid w
  = (Raise KeyError,
     mkWorld (set_time (Z.max (time (self w) + 1) (t + 1)) (self w))
             (mkPeerList (peers (peer_list w))
                         (S (lock_depth (peer_list w))))
             (trace w ++ [EAcquire])).
Proof.
  intros Hr. unfold request_token. unfold bind at 1.
  now rewrite (request_token_update_unknown w t pid Hr).
Qed.

Lemma request_token_unknown_peer_witness :
  request_token ScenarioRepeatedRequest.up 5 7 ScenarioRepeatedRequest.joined
  = (Raise KeyError,
     mkWorld (mkLock 1 6 (Some [(KInt 1, VInt 0); (KInt 2, VInt 0)])
                     [(KInt 1, 0); (KInt 2, 0)] NO_TOKEN)
             (mkPeerList [2] 1)
             [EAcquire; ERelease; EAcquire]).
Proof.
  apply (request_token_unknown_peer ScenarioRepeatedRequest.up
           ScenarioRepeatedRequest.joined 5 7).
  reflexivity.
Defined.

(** ** acquire *)

(** X10.  [acquire()] by a peer that has the token, idle or already
    held, returns at once: no peer is called, the state is [TOKEN_HELD],
    [token[own_id]] is the clock, advanced by one, and the monitor is
    released. *)
Theorem acquire_with_token (up : Z -> bool) (w : World) (tk : Dict.t pyval) :
  state (self w) <> NO_TOKEN ->
  token (self w) = Some tk ->
  acquire up w
  = (Ret tt,
     mkWorld (mkLock (owner_id (self w)) (time (self w) + 1)
                     (Some (Dict.set (KInt (owner_id (self w)))
                                     (VInt (time (self w) + 1)) tk))
                     (request (self w)) TOKEN_HELD)
             (peer_list w)
             (trace w ++ [EAcquire; ERelease])).
Proof.
  intros Hs Ht. destruct_world w. subst tok.
  unfold acquire, enter_critical_section. unfold_prims. simpl.
  destruct st; [congruence | |]; simpl; rewrite <- !app_assoc; reflexivity.
Qed.

Lemma acquire_with_token_witness :
  acquire ScenarioS3.all_up ScenarioS3.holder
  = (Ret tt,
     mkWorld (mkLock 2 6
                     (Some [(KInt 2, VInt 6); (KInt 1, VInt 0);
                            (KInt 3, VInt 0); (KInt 4, VInt 0)])
                     [(KInt 2, 0); (KInt 1, 4); (KInt 3, 0); (KInt 4, 3)]
                     TOKEN_HELD)
             (mkPeerList [1; 3; 4] 0)
             [EAcquire; ERelease]).
Proof.
  apply (acquire_with_token ScenarioS3.all_up ScenarioS3.holder
           [(KInt 2, VInt 5); (KInt 1, VInt 0); (KInt 3, VInt 0);
            (KInt 4, VInt 0)]).
  - discriminate.
  - reflexivity.
Defined.


Lemma Z_mem_true (q : Z) (l : list Z) : Z_mem q l = true <-> In q l.
Proof.
  unfold Z_mem. rewrite existsb_exists. split.
  - intros (x & Hx & E). apply Z.eqb_eq in E. now subst.
  - intros H. exists q. split; [exact H | apply Z.eqb_refl].
Qed.









(** ** The end of acquire *)

(** X12.  A thread woken up in [acquire]: if the token has arrived
    ([TOKEN_PRESENT]) it takes it, the state becomes [TOKEN_HELD],
    [token[own_id]] the current clock, and the monitor is released; in
    any other state it waits again and nothing changes. *)
Theorem acquire_resume_takes_token (w : World) (tk : Dict.t pyval) (n : nat) :
  token (self w) = Some tk ->
  lock_depth (peer_list w) = S n ->
  acquire_resume w
  = match state (self w) with
    | TOKEN_PRESENT =>
        (Ret tt,
         mkWorld (mkLock (owner_id (self w)) (time (self w))
                         (Some (Dict.set (KInt (owner_id (self w)))
                                         (VInt (time (self w))) tk))
                         (request (self w)) TOKEN_HELD)
                 (mkPeerList (peers (peer_list w)) n)
                 (trace w ++ [ERelease]))
    | _ =>
        (Blocked,
         mkWorld (self w) (peer_list w) (trace w ++ [EWait]))
    end.
Proof.
  intros Ht Hd. destruct_world w. subst tok depth.
  destruct st; reflexivity.
Qed.

Lemma acquire_resume_takes_token_witness :
  acquire_resume
    (mkWorld (mkLock 1 7 (Some [(KInt 1, VInt 0); (KInt 2, VInt 6)])
                     [(KInt 1, 0); (KInt 2, 0)] TOKEN_PRESENT)
             (mkPeerList [2] 1) [])
  = (Ret tt,
     mkWorld (mkLock 1 7 (Some [(KInt 1, VInt 7); (KInt 2, VInt 6)])
                     [(KInt 1, 0); (KInt 2, 0)] TOKEN_HELD)
             (mkPeerList [2] 0) [ERelease]).
Proof.
  apply (acquire_resume_takes_token
           (mkWorld (mkLock 1 7 (Some [(KInt 1, VInt 0); (KInt 2, VInt 6)])
                            [(KInt 1, 0); (KInt 2, 0)] TOKEN_PRESENT)
                    (mkPeerList [2] 1) [])
           [(KInt 1, VInt 0); (KInt 2, VInt 6)] 0);
    reflexivity.
Defined.

Lemma bind_ret_inv {A B} (m : M A) (k : A -> M B) (w w' : World) (b : B) :
  bind m k w = (Ret b, w') ->
  exists a w1, m w = (Ret a, w1) /\ k a w1 = (Ret b, w').
Proof.
  unfold bind. destruct (m w) as [[a | e |] w1]; intros E;
    try discriminate.
  now exists a, w1.
Qed.

Lemma enter_critical_section_ret (w w' : World) :
  enter_critical_section w = (Ret tt, w') ->
  state (self w') = TOKEN_HELD /\
  exists tk',
    token (self w') = Some tk' /\
    Dict.get (KInt (owner_id (self w'))) tk' = Some (VInt (time (self w'))).
Proof.
  destruct_world w. unfold enter_critical_section. unfold_prims. simpl.
  destruct tok as [tk |]; simpl; [| discriminate].
  destruct depth; simpl; [discriminate |].
  intros E. inversion E. subst. simpl. split; [reflexivity |].
  eexists. split; [reflexivity |]. apply DictFacts.get_set_same.
Qed.

(** X13.  [acquire()], and likewise the resumption of a waiting
    [acquire()], returns only in state [TOKEN_HELD] with
    [token[own_id]] equal to the clock, whatever the registry and the
    network did. *)
Theorem acquire_returns_holding (up : Z -> bool) (w w' : World) :
  acquire up w = (Ret tt, w') \/ acquire_resume w = (Ret tt, w') ->
  state (self w') = TOKEN_HELD /\
  exists tk',
    token (self w') = Some tk' /\
    Dict.get (KInt (owner_id (self w'))) tk' = Some (VInt (time (self w'))).
Proof.
  intros [E | E].
  - unfold acquire in E.
    apply bind_ret_inv in E. destruct E as (? & w1 & _ & E).
    apply bind_ret_inv in E. destruct E as (? & w2 & _ & E).
    apply bind_ret_inv in E. destruct E as (? & w3 & _ & E).
    apply bind_ret_inv in E. destruct E as ([] & w4 & _ & E).
    now apply enter_critical_section_ret in E.
  - unfold acquire_resume in E.
    apply bind_ret_inv in E. destruct E as ([] & w1 & _ & E).
    now apply enter_critical_section_ret in E.
Qed.

Lemma acquire_returns_holding_witness :
  state (self (snd (acquire ScenarioS3.all_up ScenarioS3.holder)))
  = TOKEN_HELD /\
  exists tk',
    token (self (snd (acquire ScenarioS3.all_up ScenarioS3.holder)))
    = Some tk' /\
    Dict.get (KInt 2) tk' = Some (VInt 6).
Proof.
  apply (acquire_returns_holding ScenarioS3.all_up ScenarioS3.holder
           (snd (acquire ScenarioS3.all_up ScenarioS3.holder))).
  left. reflexivity.
Defined.

(** ** release *)

Lemma nobody_claims_satisfied (own : Z) (ps : list Z) (rq : Dict.t Z)
  (tk : Dict.t pyval) :
  nobody_claims own ps rq tk ->
  forall q, In q (order_of own ps) -> satisfied ps rq tk q.
Proof.
  intros H q Hq. split; [now apply order_of_registered in Hq |].
  apply order_of_in in Hq. destruct Hq as [Hin Hne].
  exact (H q Hin Hne).
Qed.

Lemma nobody_claims_at_release (l : DistributedLock) (ps : list Z)
  (tk : Dict.t pyval) :
  nobody_claims (owner_id l) ps (request l) tk ->
  nobody_claims (owner_id l) ps (request l) (token_at_release l tk).
Proof.
  intros H q Hin Hne. destruct (H q Hin Hne) as (r & t & Hr & Hk & Hle).
  exists r, t. repeat split; auto.
  unfold token_at_release. destruct (state l); auto.
  rewrite DictFacts.get_set_other; auto. now apply key_int_neq.
Qed.

(** X14.  [release()] by a peer that has the token while no other member
    has an outstanding request: no peer is called, the token stays
    ([TOKEN_PRESENT]), [token[own_id]] becomes the advanced clock if the
    token was held, and the monitor is released. *)
Theorem release_without_claimant (up : Z -> bool) (w : World)
  (tk : Dict.t pyval) :
  state (self w) <> NO_TOKEN ->
  token (self w) = Some tk ->
  nobody_claims (owner_id (self w)) (peers (peer_list w))
                (request (self w)) tk ->
  release up w
  = (Ret tt,
     mkWorld (mkLock (owner_id (self w)) (time (self w) + 1)
                     (Some (token_at_release (self w) tk))
                     (request (self w)) TOKEN_PRESENT)
             (peer_list w)
             (trace w ++ [EAcquire; ERelease])).
Proof.
  intros Hs Ht Hn.
  pose proof (nobody_claims_satisfied _ _ _ _
                (nobody_claims_at_release _ _ _ Hn)) as Hsat.
  destruct_world w. subst tok.
  set (tk' := token_at_release (mkLock own tm (Some tk) rq st) tk) in *.
  assert (R : forall w0,
             token (self w0) = Some tk' ->
             peers (peer_list w0) = ps -> request (self w0) = rq ->
             release_loop up (order_of own ps) w0 = (Ret tt, w0)).
  { intros w0 H1 H2 H3. apply release_loop_nobody with (tk := tk'); auto.
    now rewrite H2, H3. }
  unfold release. unfold_prims. simpl.
  destruct st; [congruence | |]; simpl;
    (rewrite R by reflexivity); simpl; rewrite <- !app_assoc; reflexivity.
Qed.

Lemma release_without_claimant_witness :
  release ScenarioS3.all_up
          (mkWorld (mkLock 2 5 (Some [(KInt 2, VInt 0); (KInt 1, VInt 4)])
                           [(KInt 2, 0); (KInt 1, 4)] TOKEN_HELD)
                   (mkPeerList [1] 0) [])
  = (Ret tt,
     mkWorld (mkLock 2 6 (Some [(KInt 2, VInt 6); (KInt 1, VInt 4)])
                     [(KInt 2, 0); (KInt 1, 4)] TOKEN_PRESENT)
             (mkPeerList [1] 0) [EAcquire; ERelease]).
Proof.
  apply (release_without_claimant ScenarioS3.all_up
           (mkWorld (mkLock 2 5 (Some [(KInt 2, VInt 0); (KInt 1, VInt 4)])
                            [(KInt 2, 0); (KInt 1, 4)] TOKEN_HELD)
                    (mkPeerList [1] 0) [])
           [(KInt 2, VInt 0); (KInt 1, VInt 4)]).
  - discriminate.
  - reflexivity.
  - intros q [<- | []] _. exists 4, 4. simpl. repeat split; lia || reflexivity.
Defined.

(** X15.  [acquire()] followed by [release()] on a peer that has the
    token while nobody else asks for it: both return, the peer is back
    in [TOKEN_PRESENT], the clock has advanced by two, [token[own_id]]
    is the new clock, and no other entry of either mapping has
    changed. *)
Theorem acquire_then_release (up : Z -> bool) (w : World)
  (tk : Dict.t pyval) :
  state (self w) <> NO_TOKEN ->
  token (self w) = Some tk ->
  nobody_claims (owner_id (self w)) (peers (peer_list w))
                (request (self w)) tk ->
  exists tk',
    release up (snd (acquire up w))
    = (Ret tt,
       mkWorld (mkLock (owner_id (self w)) (time (self w) + 2) (Some tk')
                       (request (self w)) TOKEN_PRESENT)
               (peer_list w)
               (trace w ++ [EAcquire; ERelease; EAcquire; ERelease])) /\
    Dict.get (KInt (owner_id (self w))) tk' = Some (VInt (time (self w) + 2)) /\
    (forall k, k <> KInt (owner_id (self w)) ->
               Dict.get k tk' = Dict.get k tk).
Proof.
  intros Hs Ht Hn.
  rewrite (acquire_with_token up w tk Hs Ht). cbn [snd].
  eexists. split.
  - rewrite release_without_claimant
      with (tk := Dict.set (KInt (owner_id (self w)))
                           (VInt (time (self w) + 1)) tk).
    + cbn [self owner_id time request peer_list trace token_at_release state].
      replace (time (self w) + 1 + 1) with (time (self w) + 2) by lia.
      rewrite <- app_assoc. reflexivity.
    + discriminate.
    + reflexivity.
    + cbn [self owner_id time request peer_list].
      intros q Hin Hne. destruct (Hn q Hin Hne) as (r & t & Hr & Hk & Hle).
      exists r, t. repeat split; auto.
      rewrite DictFacts.get_set_other; auto. now apply key_int_neq.
  - split.
    + apply DictFacts.get_set_same.
    + intros k N. now rewrite !DictFacts.get_set_other.
Qed.

Lemma acquire_then_release_witness :
  exists tk',
    release ScenarioS3.all_up
            (snd (acquire ScenarioS3.all_up
                    (mkWorld (mkLock 2 5
                                     (Some [(KInt 2, VInt 0);
                                            (KInt 1, VInt 4)])
                                     [(KInt 2, 0); (KInt 1, 4)]
                                     TOKEN_PRESENT)
                             (mkPeerList [1] 0) [])))
    = (Ret tt,
       mkWorld (mkLock 2 7 (Some tk') [(KInt 2, 0); (KInt 1, 4)]
                       TOKEN_PRESENT)
               (mkPeerList [1] 0)
               [EAcquire; ERelease; EAcquire; ERelease]) /\
    Dict.get (KInt 2) tk' = Some (VInt 7) /\
    Dict.get (KInt 1) tk' = Some (VInt 4).
Proof.
  destruct (acquire_then_release ScenarioS3.all_up
              (mkWorld (mkLock 2 5 (Some [(KInt 2, VInt 0); (KInt 1, VInt 4)])
                               [(KInt 2, 0); (KInt 1, 4)] TOKEN_PRESENT)
                       (mkPeerList [1] 0) [])
              [(KInt 2, VInt 0); (KInt 1, VInt 4)])
    as (tk' & E & A & B).
  - discriminate.
  - reflexivity.
  - intros q [<- | []] _. exists 4, 4. simpl. repeat split; lia || reflexivity.
  - exists tk'. split; [exact E |]. split; [exact A |].
    rewrite (B (KInt 1)); [reflexivity | discriminate].
Defined.

(** X16.  [release()] never adds an entry to [request] and never changes
    one: whatever the network does and however the method ends, every
    key of [request] keeps its value or is gone. *)
Theorem release_only_removes_requests (up : Z -> bool) (w : World)
  (k : pykey) :
  Dict.get k (request (self (snd (release up w))))
  = Dict.get k (request (self w)) \/
  Dict.get k (request (self (snd (release up w)))) = None.
Proof. apply (request_shrinks_release up w k). Qed.

Lemma stays_unheld_frame : Frame stays_unheld.
Proof. split; unfold stays_unheld; auto. Qed.

#[local] Existing Instance stays_unheld_frame.

Ltac stays_unheld_tac :=
  repeat first
    [ solve [auto with frames]
    | frame_step
    | apply respects_update;
      let l := fresh "l" in
      let l' := fresh "l'" in
      let E := fresh "E" in
      intros l l' E; unfold stays_unheld; split_update E; simpl;
      solve [auto | discriminate | intros; discriminate] ].

Lemma stays_unheld_release_loop up order :
  respects stays_unheld (release_loop up order).
Proof. induction order as [| p rest IH]; simpl; stays_unheld_tac. Qed.

(** X17.  On a lock whose token mapping is defined, [release()] never
    leaves the state [TOKEN_HELD], whether it returns or raises. *)
Theorem release_gives_up_hold (up : Z -> bool) (w : World)
  (tk : Dict.t pyval) :
  token (self w) = Some tk ->
  state (self (snd (release up w))) <> TOKEN_HELD.
Proof.
  intros Ht. destruct_world w. subst tok.
  assert (L : forall w0, state (self w0) = TOKEN_PRESENT ->
                         state (self (snd
                           (try_finally
                              (try_except
                                 (release_loop up
                                    (order_of (owner_id (self w0))
                                              (peers (peer_list w0))))
                                 (fun _ => ret tt))
                              lock_release w0))) <> TOKEN_HELD).
  { intros w0 Hs.
    assert (R : respects stays_unheld
                  (try_finally
                     (try_except
                        (release_loop up
                           (order_of (owner_id (self w0))
                                     (peers (peer_list w0))))
                        (fun _ => ret tt))
                     lock_release)).
    { pose proof stays_unheld_release_loop. stays_unheld_tac. }
    apply R. rewrite Hs. discriminate. }
  unfold release. unfold_prims.
  destruct st; simpl.
  - discriminate.
  - apply (L (mkWorld (mkLock own (tm + 1) (Some tk) rq TOKEN_PRESENT)
                      (mkPeerList ps (S depth)) (tr ++ [EAcquire]))).
    reflexivity.
  - apply (L (mkWorld (mkLock own (tm + 1)
                              (Some (Dict.set (KInt own) (VInt (tm + 1)) tk))
                              rq TOKEN_PRESENT)
                      (mkPeerList ps (S depth)) (tr ++ [EAcquire]))).
    reflexivity.
Qed.

Lemma release_gives_up_hold_witness :
  state (self (snd (release ScenarioDeadClaimant.up
                            (ScenarioDeadClaimant.lock_in TOKEN_HELD))))
  <> TOKEN_HELD.
Proof.
  apply (release_gives_up_hold ScenarioDeadClaimant.up
           (ScenarioDeadClaimant.lock_in TOKEN_HELD)
           [(KInt 1, VInt 0); (KInt 2, VInt 0); (KInt 3, VInt 0)]).
  reflexivity.
Defined.

(** ** destroy, continued *)

(** X18.  [destroy()] by a peer without the token advances the clock and
    does nothing else: no call, no change to the mappings, the monitor
    released. *)
Theorem destroy_without_token (up : Z -> bool) (w : World) :
  state (self w) = NO_TOKEN ->
  destroy up w
  = (Ret tt,
     mkWorld (set_time (time (self w) + 1) (self w)) (peer_list w)
             (trace w ++ [EAcquire; ERelease])).
Proof.
  intros Hs. destruct_world w. subst st.
  unfold destroy. unfold_prims. simpl. rewrite <- !app_assoc. reflexivity.
Qed.

Lemma destroy_without_token_witness :
  destroy ScenarioDeadClaimant.up (ScenarioDeadClaimant.lock_in NO_TOKEN)
  = (Ret tt,
     mkWorld (mkLock 1 3
                     (Some [(KInt 1, VInt 0); (KInt 2, VInt 0);
                            (KInt 3, VInt 0)])
                     [(KInt 1, 0); (KInt 2, 1); (KInt 3, 0)] NO_TOKEN)
             (mkPeerList [2; 3] 0) [EAcquire; ERelease]).
Proof.
  apply (destroy_without_token ScenarioDeadClaimant.up
           (ScenarioDeadClaimant.lock_in NO_TOKEN)).
  reflexivity.
Defined.

(** X19.  [destroy()] by a peer that has the token, with no outstanding
    request and no member that can be reached: it offers the token to
    every member once, in the hand-off order, evicts nobody, and returns
    still in [TOKEN_PRESENT] with the monitor released. *)
Theorem destroy_nobody_reachable (up : Z -> bool) (w : World)
  (tk : Dict.t pyval) :
  state (self w) <> NO_TOKEN ->
  token (self w) = Some tk ->
  lock_depth (peer_list w) = 0%nat ->
  nobody_claims (owner_id (self w)) (peers (peer_list w))
                (request (self w)) tk ->
  (forall q, In q (peers (peer_list w)) -> q <> owner_id (self w) ->
             up q = false) ->
  let tk' :=
    match state (self w) with
    | TOKEN_HELD =>
        Dict.set (KInt (owner_id (self w))) (VInt (time (self w) + 2)) tk
    | _ => tk
    end in
  destroy up w
  = (Ret tt,
     mkWorld (mkLock (owner_id (self w)) (time (self w) + 2) (Some tk')
                     (request (self w)) TOKEN_PRESENT)
             (peer_list w)
             (trace w ++ [EAcquire; ERelease; EAcquire; ERelease; EAcquire]
                ++ failed_offers (wire_of tk')
                     (order_of (owner_id (self w)) (peers (peer_list w)))
                ++ [ERelease])).
Proof.
  intros Hs Ht Hd Hn Hdown tk'.
  assert (Hreg : forall q, In q (order_of (owner_id (self w))
                                          (peers (peer_list w))) ->
                           Z_mem q (peers (peer_list w)) = true /\
                           up q = false).
  { intros q Hq. split; [now apply order_of_registered in Hq |].
    apply order_of_in in Hq. now apply Hdown. }
  destruct_world w. subst tok depth.
  assert (Hsat : forall q, In q (order_of own ps) -> satisfied ps rq tk' q).
  { intros q Hq. split; [now apply order_of_registered in Hq |].
    apply order_of_in in Hq. destruct Hq as [Hin Hne].
    destruct (Hn q Hin Hne) as (r & t & Hr & Hk & Hle).
    exists r, t. repeat split; auto.
    unfold tk'. destruct st; auto.
    rewrite DictFacts.get_set_other; auto. now apply key_int_neq. }
  assert (R : forall w0,
             token (self w0) = Some tk' ->
             peers (peer_list w0) = ps -> request (self w0) = rq ->
             release_loop up (order_of own ps) w0 = (Ret tt, w0)).
  { intros w0 H1 H2 H3. apply release_loop_nobody with (tk := tk'); auto.
    now rewrite H2, H3. }
  assert (D : forall l tr0,
             token l = Some tk' ->
             destroy_loop up (order_of own ps)
                          (mkWorld l (mkPeerList ps 1) tr0)
             = (Ret tt,
                mkWorld l (mkPeerList ps 1)
                        (tr0 ++ failed_offers (wire_of tk')
                                              (order_of own ps)))).
  { intros l tr0 Hl.
    rewrite <- (app_nil_r (order_of own ps)) at 1.
    now rewrite (destroy_loop_unreachable up (order_of own ps) [] l ps 0 tr0
                   tk' Hl Hreg). }
  unfold destroy, release. unfold_prims. simpl.
  destruct st; [congruence | |]; simpl;
    replace (tm + 1 + 1) with (tm + 2) by lia;
    (rewrite R by reflexivity); simpl;
    (rewrite D by reflexivity); simpl;
    rewrite <- !app_assoc; reflexivity.
Qed.

Lemma destroy_nobody_reachable_witness :
  destroy (fun _ => false)
          (mkWorld (mkLock 2 5
                           (Some [(KInt 2, VInt 0); (KInt 1, VInt 4);
                                  (KInt 3, VInt 0)])
                           [(KInt 2, 0); (KInt 1, 4); (KInt 3, 0)]
                           TOKEN_PRESENT)
                   (mkPeerList [1; 3] 0) [])
  = (Ret tt,
     mkWorld (mkLock 2 7
                     (Some [(KInt 2, VInt 0); (KInt 1, VInt 4);
                            (KInt 3, VInt 0)])
                     [(KInt 2, 0); (KInt 1, 4); (KInt 3, 0)]
                     TOKEN_PRESENT)
             (mkPeerList [1; 3] 0)
             [EAcquire; ERelease; EAcquire; ERelease; EAcquire;
              ERelease;
              ECall 3 (CallObtainToken
                         (VList [VList [VInt 2; VInt 0];
                                 VList [VInt 1; VInt 4];
                                 VList [VInt 3; VInt 0]])) false;
              EAcquire;
              ERelease;
              ECall 1 (CallObtainToken
                         (VList [VList [VInt 2; VInt 0];
                                 VList [VInt 1; VInt 4];
                                 VList [VInt 3; VInt 0]])) false;
              EAcquire;
              ERelease]).
Proof.
  apply (destroy_nobody_reachable (fun _ => false)
           (mkWorld (mkLock 2 5
                            (Some [(KInt 2, VInt 0); (KInt 1, VInt 4);
                                   (KInt 3, VInt 0)])
                            [(KInt 2, 0); (KInt 1, 4); (KInt 3, 0)]
                            TOKEN_PRESENT)
                    (mkPeerList [1; 3] 0) [])
           [(KInt 2, VInt 0); (KInt 1, VInt 4); (KInt 3, VInt 0)]).
  - discriminate.
  - reflexivity.
  - reflexivity.
  - intros q [<- | [<- | []]] _.
    + exists 4, 4. simpl. repeat split; lia || reflexivity.
    + exists 0, 0. simpl. repeat split; lia || reflexivity.
  - reflexivity.
Defined.

(** The token holder 2 of scenario S3 leaves while nobody asks for the
    token and peer 3 cannot be reached: the token goes to peer 4. *)
Lemma destroy_hands_to_first_reachable_witness :
  destroy (fun p => negb (p =? 3))
          (mkWorld (mkLock 2 5
                           (Some [(KInt 2, VInt 5); (KInt 1, VInt 0);
                                  (KInt 3, VInt 0); (KInt 4, VInt 0)])
                           [(KInt 2, 0); (KInt 1, 0); (KInt 3, 0);
                            (KInt 4, 0)]
                           TOKEN_HELD)
                   (mkPeerList [1; 3; 4] 0) [])
  = (Ret tt,
     mkWorld (mkLock 2 7
                     (Some [(KInt 2, VInt 7); (KInt 1, VInt 0);
                            (KInt 3, VInt 0); (KInt 4, VInt 0)])
                     [(KInt 2, 0); (KInt 1, 0); (KInt 3, 0); (KInt 4, 0)]
                     NO_TOKEN)
             (mkPeerList [1; 3; 4] 0)
             [EAcquire; ERelease; EAcquire; ERelease; EAcquire;
              ERelease;
              ECall 3 (CallObtainToken
                         (VList [VList [VInt 2; VInt 7];
                                 VList [VInt 1; VInt 0];
                                 VList [VInt 3; VInt 0];
                                 VList [VInt 4; VInt 0]])) false;
              EAcquire;
              ERelease;
              ECall 4 (CallObtainToken
                         (VList [VList [VInt 2; VInt 7];
                                 VList [VInt 1; VInt 0];
                                 VList [VInt 3; VInt 0];
                                 VList [VInt 4; VInt 0]])) true;
              EAcquire; ERelease]).
Proof.
  apply (destroy_hands_to_first_reachable (fun p => negb (p =? 3))
           (mkWorld (mkLock 2 5
                            (Some [(KInt 2, VInt 5); (KInt 1, VInt 0);
                                   (KInt 3, VInt 0); (KInt 4, VInt 0)])
                            [(KInt 2, 0); (KInt 1, 0); (KInt 3, 0);
                             (KInt 4, 0)]
                            TOKEN_HELD)
                    (mkPeerList [1; 3; 4] 0) [])
           [(KInt 2, VInt 5); (KInt 1, VInt 0); (KInt 3, VInt 0);
            (KInt 4, VInt 0)]
           [3] [1] 4).
  - discriminate.
  - reflexivity.
  - reflexivity.
  - simpl. intros q [<- | [<- | [<- | []]]]; (split; [reflexivity |]);
      exists 0, 0; simpl; repeat split; lia || reflexivity.
  - reflexivity.
  - intros q [<- | []]. reflexivity.
  - reflexivity.
Defined.

(** ** release after a failed send *)

Lemma NoDup_order_of (own : Z) (ps : list Z) :
  NoDup ps -> NoDup (order_of own ps).
Proof.
  intros ND. rewrite order_of_spec. unfold higher_than, lower_than.
  induction ND as [| p ps Np ND IH]; simpl; [constructor |].
  destruct (own <? p) eqn:H; destruct (p <? own) eqn:L; simpl.
  - apply Z.ltb_lt in H. apply Z.ltb_lt in L. lia.
  - constructor; [| exact IH].
    rewrite in_app_iff, !filter_In. tauto.
  - apply NoDup_Add with (a := p)
                         (l := filter (fun q => own <? q) ps
                                 ++ filter (fun q => q <? own) ps).
    + apply Add_app.
    + split; [exact IH |]. rewrite in_app_iff, !filter_In. tauto.
  - exact IH.
Qed.

Lemma filter_not_mem_nil (reg : list Z) :
  filter (fun q => negb (Z_mem q [])) reg = reg.
Proof.
  induction reg as [| q reg IH]; simpl; [reflexivity |]. now f_equal.
Qed.

Lemma filter_not_mem_cons (p : Z) (cl reg : list Z) :
  filter (fun q => negb (Z_mem q cl)) (filter (fun q => negb (q =? p)) reg)
  = filter (fun q => negb (Z_mem q (p :: cl))) reg.
Proof.
  induction reg as [| q reg IH]; cbn [filter]; [reflexivity |].
  assert (C : Z_mem q (p :: cl) = (q =? p) || Z_mem q cl) by reflexivity.
  rewrite C. destruct (q =? p); cbn [negb orb filter]; [exact IH |].
  destruct (negb (Z_mem q cl)); now rewrite IH.
Qed.

(** The loop of [release] run by a thread that does not hold the
    monitor: releasing the monitor for the call raises, the handler
    takes this for a failed send, and every claimant is removed without
    being called. *)
Lemma release_loop_unheld (up : Z -> bool) (rest : list Z) :
  forall (l : DistributedLock) (reg : list Z) (tr : list event)
         (tk : Dict.t pyval),
    token l = Some tk ->
    state l = TOKEN_PRESENT ->
    NoDup rest ->
    (forall q, In q rest ->
               Z_mem q reg = true /\ has_entries (request l) tk q) ->
    exists rq' tk',
      release_loop up rest (mkWorld l (mkPeerList reg 0) tr)
      = (Ret tt,
         mkWorld (mkLock (owner_id l) (time l) (Some tk') rq' TOKEN_PRESENT)
                 (mkPeerList
                    (filter (fun q => negb (Z_mem q
                               (filter (claimb (request l) tk) rest))) reg)
                    0)
                 (tr ++ evictions (filter (claimb (request l) tk) rest))) /\
      (forall q, In q (filter (claimb (request l) tk) rest) ->
                 Dict.get (KInt q) rq' = None /\
                 Dict.get (KInt q) tk' = None) /\
      (forall k, (forall q, In q (filter (claimb (request l) tk) rest) ->
                            k <> KInt q) ->
                 Dict.get k rq' = Dict.get k (request l) /\
                 Dict.get k tk' = Dict.get k tk).
Proof.
  induction rest as [| p rest IH]; intros l reg tr tk Ht Hs ND Hent.
  - exists (request l), tk. split; [| split].
    + cbn [filter evictions flat_map release_loop]. unfold ret.
      rewrite filter_not_mem_nil, app_nil_r.
      destruct l; simpl in *; now subst.
    + intros q [].
    + intros k _. split; reflexivity.
  - inversion ND as [| ? ? Np ND']; subst.
    destruct (Hent p (or_introl eq_refl)) as [Hm (r & t & Hr & Hk)].
    assert (Hc : claimb (request l) tk p = (t <? r)).
    { unfold claimb. now rewrite Hr, Hk. }
    cbn [filter]. rewrite Hc.
    destruct (t <? r) eqn:Hlt.
    + (* a claimant: removed without a call *)
      assert (Hent' : forall q, In q rest ->
                 Z_mem q (filter (fun q0 => negb (q0 =? p)) reg) = true /\
                 has_entries (Dict.remove (KInt p) (request l))
                             (Dict.remove (KInt p) tk) q).
      { intros q Hq. destruct (Hent q (or_intror Hq)) as [Hqm (r' & t' & A & B)].
        assert (Nq : q <> p) by (intros ->; contradiction).
        split.
        - apply Z_mem_true. apply filter_In. split.
          + now apply Z_mem_true.
          + apply negb_true_iff. now apply Z.eqb_neq.
        - exists r', t'.
          rewrite !DictFacts.get_remove_other by (now apply key_int_neq).
          now split. }
      destruct (IH (set_state TOKEN_PRESENT (without_peer p l))
                   (filter (fun q0 => negb (q0 =? p)) reg)
                   (tr ++ [EDelRequest p; EDelToken p; EUnregister p])
                   (Dict.remove (KInt p) tk))
        as (rq' & tk' & E & Hgone & Hkept).
      { simpl. now rewrite Ht. }
      { reflexivity. }
      { exact ND'. }
      { exact Hent'. }
      assert (Hcl : filter (claimb (Dict.remove (KInt p) (request l))
                                   (Dict.remove (KInt p) tk)) rest
                    = filter (claimb (request l) tk) rest).
      { apply filter_ext_in. intros q Hq. unfold claimb.
        assert (Nq : q <> p) by (intros ->; contradiction).
        now rewrite !DictFacts.get_remove_other by (now apply key_int_neq). }
      cbn [set_state without_peer request owner_id time] in E, Hgone, Hkept.
      rewrite Hcl in E, Hgone, Hkept.
      exists rq', tk'. split; [| split].
      * rewrite <- (filter_not_mem_cons p).
        cbn [evictions flat_map]. fold (evictions (filter (claimb (request l) tk) rest)).
        rewrite app_assoc. rewrite <- E.
        destruct l as [own tm tok rq st]. simpl in *. subst tok st.
        unfold_prims. simpl.
        rewrite Hm; simpl; rewrite Hr; simpl; rewrite Hk; simpl.
        rewrite Hlt; simpl.
        rewrite (mem_of_get _ _ _ Hr); simpl.
        rewrite (mem_of_get _ _ _ Hk); simpl.
        rewrite <- !app_assoc. reflexivity.
      * intros q [<- | Hq]; [| now apply Hgone].
        destruct (Hkept (KInt p)) as [A B].
        { intros q Hq E'. inversion E'. subst.
          apply filter_In in Hq. tauto. }
        rewrite A, B. split; apply DictFacts.get_remove_same.
      * intros k Hk0. destruct (Hkept k) as [A B].
        { intros q Hq. apply Hk0. now right. }
        rewrite A, B.
        assert (Nk : k <> KInt p) by (apply Hk0; now left).
        split; now apply DictFacts.get_remove_other.
    + (* no outstanding request: skipped *)
      destruct (IH l reg tr tk Ht Hs ND') as (rq' & tk' & E & Hgone & Hkept).
      { intros q Hq. apply Hent. now right. }
      exists rq', tk'. split; [| split; assumption].
      rewrite <- E. simpl. unfold_prims. simpl.
      rewrite Hm; simpl; rewrite Hr; simpl. rewrite Ht; simpl.
      rewrite Hk; simpl. rewrite Hlt. reflexivity.
Qed.

(** X20.  [release()] called by a thread that does not already hold the
    monitor, when the send to the first claimant fails: the claimant is
    evicted with the monitor not held, every later member of the
    hand-off order with an outstanding request is evicted too without
    being called (releasing the monitor for its call raises, which the
    handler takes for a failed send), the token stays
    ([TOKEN_PRESENT]), and the final release of the monitor raises
    [RuntimeError] to the caller. *)
Theorem release_dead_claimant_cascade (up : Z -> bool) (w : World)
  (tk : Dict.t pyval) (pre post : list Z) (p : Z) :
  state (self w) <> NO_TOKEN ->
  token (self w) = Some tk ->
  lock_depth (peer_list w) = 0%nat ->
  NoDup (peers (peer_list w)) ->
  order_of (owner_id (self w)) (peers (peer_list w)) = pre ++ p :: post ->
  (forall q, In q pre ->
             satisfied (peers (peer_list w)) (request (self w)) tk q) ->
  claims (peers (peer_list w)) (request (self w)) tk p ->
  up p = false ->
  (forall q, In q post -> has_entries (request (self w)) tk q) ->
  let tk0 := token_at_release (self w) tk in
  let gone := p :: filter (claimb (request (self w)) tk) post in
  exists rq' tk',
    release up w
    = (Raise RuntimeError,
       mkWorld (mkLock (owner_id (self w)) (time (self w) + 1) (Some tk') rq'
                       TOKEN_PRESENT)
               (mkPeerList (filter (fun q => negb (Z_mem q gone))
                                   (peers (peer_list w))) 0)
               (trace w ++ [EAcquire; ERelease;
                            ECall p (CallObtainToken (wire_of tk0)) false]
                  ++ evictions gone)) /\
    (forall q, In q gone ->
               Dict.get (KInt q) rq' = None /\ Dict.get (KInt q) tk' = None) /\
    (forall k, (forall q, In q gone -> k <> KInt q) ->
               Dict.get k rq' = Dict.get k (request (self w)) /\
               Dict.get k tk' = Dict.get k tk0).
Proof.
  intros Hs Ht Hd ND Ho Hpre Hp Hup Hpost tk0 gone.
  pose proof (NoDup_order_of (owner_id (self w)) _ ND) as NDo.
  rewrite Ho in NDo.
  assert (Hin : forall q, In q (pre ++ p :: post) ->
                          In q (peers (peer_list w)) /\
                          q <> owner_id (self w)).
  { intros q Hq. rewrite <- Ho in Hq. now apply order_of_in in Hq. }
  assert (NDpost : NoDup post /\ ~ In p post).
  { apply NoDup_app_remove_l in NDo. inversion NDo; subst. tauto. }
  destruct NDpost as [NDpost Np].
  destruct_world w. subst tok depth.
  fold tk0.
  assert (Hother : forall q, In q (pre ++ p :: post) ->
                             Dict.get (KInt q) tk0 = Dict.get (KInt q) tk).
  { intros q Hq. unfold tk0, token_at_release. simpl. destruct st; auto.
    apply DictFacts.get_set_other. apply key_int_neq.
    now apply Hin. }
  assert (Hpre' : forall q, In q pre -> satisfied ps rq tk0 q).
  { intros q Hq. destruct (Hpre q Hq) as [Hm (r & t & Hr & Hk & Hle)].
    split; [exact Hm |]. exists r, t. repeat split; auto.
    rewrite Hother; auto. rewrite in_app_iff. now left. }
  assert (Hp' : claims ps rq tk0 p).
  { destruct Hp as [Hm (r & t & Hr & Hk & Hlt)].
    split; [exact Hm |]. exists r, t. repeat split; auto.
    rewrite Hother; auto. rewrite in_app_iff. right. now left. }
  (* the loop, from the state reached after the failed send *)
  destruct (release_loop_unheld up post
              (set_state TOKEN_PRESENT
                 (without_peer p (mkLock own (tm + 1) (Some tk0) rq
                                         TOKEN_PRESENT)))
              (filter (fun q => negb (q =? p)) ps)
              ((tr ++ [EAcquire])
                 ++ [ERelease; ECall p (CallObtainToken (wire_of tk0)) false;
                     EDelRequest p; EDelToken p; EUnregister p])
              (Dict.remove (KInt p) tk0))
    as (rq' & tk' & E & Hgone & Hkept).
  { reflexivity. }
  { reflexivity. }
  { exact NDpost. }
  { intros q Hq.
    assert (Nq : q <> p) by (intros ->; contradiction).
    assert (Hq' : In q (pre ++ p :: post))
      by (rewrite in_app_iff; right; now right).
    split.
    - apply Z_mem_true. apply filter_In. split; [now apply Hin |].
      apply negb_true_iff. now apply Z.eqb_neq.
    - destruct (Hpost q Hq) as (r & t & A & B). exists r, t. simpl.
      rewrite !DictFacts.get_remove_other by (now apply key_int_neq).
      rewrite Hother by exact Hq'. now split. }
  cbn [set_state without_peer request owner_id time option_map token]
    in E, Hgone, Hkept.
  assert (Hcl : filter (claimb (Dict.remove (KInt p) rq)
                               (Dict.remove (KInt p) tk0)) post
                = filter (claimb rq tk) post).
  { apply filter_ext_in. intros q Hq. unfold claimb.
    assert (Nq : q <> p) by (intros ->; contradiction).
    rewrite !DictFacts.get_remove_other by (now apply key_int_neq).
    rewrite Hother; [reflexivity |].
    rewrite in_app_iff. right. now right. }
  rewrite Hcl in E, Hgone, Hkept.
  rewrite filter_not_mem_cons in E.
  exists rq', tk'. split; [| split].
  - assert (L : forall w0,
               self w0 = mkLock own (tm + 1) (Some tk0) rq TOKEN_PRESENT ->
               peer_list w0 = mkPeerList ps 1 ->
               trace w0 = tr ++ [EAcquire] ->
               release_loop up (pre ++ p :: post) w0
               = (Ret tt,
                  mkWorld (mkLock own (tm + 1) (Some tk') rq' TOKEN_PRESENT)
                          (mkPeerList (filter (fun q => negb (Z_mem q gone))
                                              ps) 0)
                          (((tr ++ [EAcquire])
                              ++ [ERelease;
                                  ECall p (CallObtainToken (wire_of tk0))
                                        false;
                                  EDelRequest p; EDelToken p;
                                  EUnregister p])
                             ++ evictions (filter (claimb rq tk) post)))).
    { intros [l0 pl0 tr0] H1 H2 H3. simpl in H1, H2, H3. subst l0 pl0 tr0.
      rewrite (release_loop_skip up pre (p :: post)
                 (mkWorld (mkLock own (tm + 1) (Some tk0) rq TOKEN_PRESENT)
                          (mkPeerList ps 1) (tr ++ [EAcquire]))
                 tk0 eq_refl Hpre').
      rewrite (release_loop_failed_send up p post
                 (mkWorld (mkLock own (tm + 1) (Some tk0) rq TOKEN_PRESENT)
                          (mkPeerList ps 1) (tr ++ [EAcquire]))
                 tk0 0 eq_refl eq_refl Hp' Hup).
      exact E. }
    unfold release. unfold_prims. simpl.
    destruct st; [congruence | |]; simpl; rewrite Ho;
      (rewrite L by reflexivity); simpl; rewrite <- !app_assoc; reflexivity.
  - intros q [<- | Hq]; [| now apply Hgone].
    destruct (Hkept (KInt p)) as [A B].
    { intros q Hq E'. inversion E'. subst. apply filter_In in Hq. tauto. }
    rewrite A, B. split; apply DictFacts.get_remove_same.
  - intros k Hk0. destruct (Hkept k) as [A B].
    { intros q Hq. apply Hk0. now right. }
    rewrite A, B.
    assert (Nk : k <> KInt p) by (apply Hk0; now left).
    split; now apply DictFacts.get_remove_other.
Qed.

(** Peer 1 has the token, peers 2 and 3 have asked for it, peer 2 is
    down: peer 3, which is up, is evicted without having been called. *)
Lemma release_dead_claimant_cascade_witness :
  exists rq' tk',
    release ScenarioDeadClaimant.up
            (mkWorld (mkLock 1 2
                             (Some [(KInt 1, VInt 0); (KInt 2, VInt 0);
                                    (KInt 3, VInt 0); (KInt 4, VInt 0)])
                             [(KInt 1, 0); (KInt 2, 1); (KInt 3, 1);
                              (KInt 4, 0)]
                             TOKEN_PRESENT)
                     (mkPeerList [2; 3; 4] 0) [])
    = (Raise RuntimeError,
       mkWorld (mkLock 1 3 (Some tk') rq' TOKEN_PRESENT)
               (mkPeerList [4] 0)
               [EAcquire; ERelease;
                ECall 2 (CallObtainToken
                           (VList [VList [VInt 1; VInt 0];
                                   VList [VInt 2; VInt 0];
                                   VList [VInt 3; VInt 0];
                                   VList [VInt 4; VInt 0]])) false;
                EDelRequest 2; EDelToken 2; EUnregister 2;
                EDelRequest 3; EDelToken 3; EUnregister 3]) /\
    Dict.get (KInt 3) rq' = None /\
    Dict.get (KInt 4) rq' = Some 0.
Proof.
  destruct (release_dead_claimant_cascade ScenarioDeadClaimant.up
              (mkWorld (mkLock 1 2
                               (Some [(KInt 1, VInt 0); (KInt 2, VInt 0);
                                      (KInt 3, VInt 0); (KInt 4, VInt 0)])
                               [(KInt 1, 0); (KInt 2, 1); (KInt 3, 1);
                                (KInt 4, 0)]
                               TOKEN_PRESENT)
                       (mkPeerList [2; 3; 4] 0) [])
              [(KInt 1, VInt 0); (KInt 2, VInt 0); (KInt 3, VInt 0);
               (KInt 4, VInt 0)]
              [] [3; 4] 2)
    as (rq' & tk' & E & Hgone & Hkept).
  - discriminate.
  - reflexivity.
  - reflexivity.
  - simpl. repeat constructor; simpl; intuition lia.
  - reflexivity.
  - intros q [].
  - split; [reflexivity |]. exists 1, 0. simpl. repeat split; reflexivity || lia.
  - reflexivity.
  - intros q [<- | [<- | []]].
    + exists 1, 0. now split.
    + exists 0, 0. now split.
  - exists rq', tk'. split; [exact E |]. split.
    + apply (Hgone 3). simpl. auto.
    + destruct (Hkept (KInt 4)) as [A _]; [| exact A].
      simpl. intros q [<- | [<- | []]]; discriminate.
Defined.

(** ** The hand-off order, continued *)

Lemma count_occ_filter_other (f : Z -> bool) (ps : list Z) (p : Z) :
  f p = true ->
  count_occ Z.eq_dec (filter f ps) p = count_occ Z.eq_dec ps p.
Proof.
  intros Hf. induction ps as [| q ps IH]; simpl; [reflexivity |].
  destruct (f q) eqn:Hq; simpl.
  - destruct (Z.eq_dec q p); now rewrite IH.
  - destruct (Z.eq_dec q p) as [-> | N]; [congruence | exact IH].
Qed.

Lemma count_occ_filter_none (f : Z -> bool) (ps : list Z) (p : Z) :
  f p = false -> count_occ Z.eq_dec (filter f ps) p = 0%nat.
Proof.
  intros Hf. apply count_occ_not_In. rewrite filter_In.
  intros [_ H]. congruence.
Qed.

(** X21.  The hand-off order never contains the own id and contains
    every other registered peer exactly as often as [get_peers()] does;
    with distinct members it has no repetition. *)
Theorem hand_off_order_covers_others (own : Z) (ps : list Z) :
  ~ In own (order_of own ps) /\
  (forall p, In p (order_of own ps) <-> In p ps /\ p <> own) /\
  (forall p, p <> own ->
             count_occ Z.eq_dec (order_of own ps) p
             = count_occ Z.eq_dec ps p) /\
  (NoDup ps -> NoDup (order_of own ps)).
Proof.
  split; [| split; [| split]].
  - intros H. apply order_of_in in H. tauto.
  - intros p. apply order_of_in.
  - intros p N. rewrite order_of_spec, count_occ_app.
    unfold higher_than, lower_than.
    destruct (Z.lt_ge_cases own p) as [L | G].
    + rewrite count_occ_filter_other by (now apply Z.ltb_lt).
      rewrite count_occ_filter_none by (apply Z.ltb_ge; lia). lia.
    + rewrite count_occ_filter_none by (apply Z.ltb_ge; lia).
      rewrite count_occ_filter_other by (apply Z.ltb_lt; lia). lia.
  - apply NoDup_order_of.
Qed.

Lemma hand_off_order_covers_others_witness :
  NoDup (order_of 2 [1; 3; 4]) /\ ~ In 2 (order_of 2 [1; 2; 3; 4]).
Proof.
  split.
  - apply (hand_off_order_covers_others 2 [1; 3; 4]).
    repeat constructor; simpl; intuition lia.
  - apply (hand_off_order_covers_others 2 [1; 2; 3; 4]).
Defined.

Lemma filter_all_false (f : Z -> bool) (ps : list Z) :
  Forall (fun q => f q = false) ps -> filter f ps = [].
Proof.
  induction 1 as [| q ps Hq F IH]; simpl; [reflexivity |].
  now rewrite Hq.
Qed.

Lemma filter_all_true (f : Z -> bool) (ps : list Z) :
  Forall (fun q => f q = true) ps -> filter f ps = ps.
Proof.
  induction 1 as [| q ps Hq F IH]; simpl; [reflexivity |].
  rewrite Hq. now f_equal.
Qed.

(** X22.  For a membership list in ascending order that does not
    contain the own id, the hand-off order is that list rotated: the
    list is the ids below the own id followed by the ids above it, and
    the order is the second part followed by the first. *)
Theorem hand_off_order_is_rotation (own : Z) (ps : list Z) :
  StronglySorted Z.lt ps ->
  ~ In own ps ->
  ps = lower_than own ps ++ higher_than own ps /\
  order_of own ps = higher_than own ps ++ lower_than own ps.
Proof.
  intros S N. split; [| apply order_of_spec].
  unfold lower_than, higher_than.
  induction S as [| p ps S IH F]; simpl; [reflexivity |].
  assert (Np : p <> own) by (intros ->; apply N; now left).
  assert (N' : ~ In own ps) by (intros H; apply N; now right).
  destruct (p <? own) eqn:L.
  - apply Z.ltb_lt in L.
    replace (own <? p) with false by (symmetry; apply Z.ltb_ge; lia).
    simpl. f_equal. now apply IH.
  - apply Z.ltb_ge in L.
    replace (own <? p) with true by (symmetry; apply Z.ltb_lt; lia).
    rewrite (filter_all_false (fun q => q <? own) ps).
    + simpl. f_equal. symmetry. apply filter_all_true.
      rewrite Forall_forall in *. intros q Hq. apply Z.ltb_lt.
      specialize (F q Hq). lia.
    + rewrite Forall_forall in *. intros q Hq. apply Z.ltb_ge.
      specialize (F q Hq). lia.
Qed.

Lemma hand_off_order_is_rotation_witness :
  [1; 3; 4] = [1] ++ [3; 4] /\ order_of 2 [1; 3; 4] = [3; 4] ++ [1].
Proof.
  apply (hand_off_order_is_rotation 2 [1; 3; 4]).
  - repeat constructor; lia.
  - simpl. intuition lia.
Defined.

(** ** obtain_token, continued *)

Lemma set_keeps_ints (k : pykey) (z : Z) (d : Dict.t pyval) :
  Forall (fun kv => is_int (snd kv)) d ->
  Forall (fun kv => is_int (snd kv)) (Dict.set k (VInt z) d).
Proof.
  induction 1 as [| [k0 v0] d H F IH]; simpl.
  - constructor; [now exists z | constructor].
  - destruct (key_eqb k k0); constructor; auto. now exists z.
Qed.

Lemma ints_of_pairs (pairs : list (Z * Z)) :
  Forall (fun kv => is_int (snd kv)) (Dict.of_items (items_of_pairs pairs)).
Proof.
  unfold Dict.of_items.
  assert (G : forall acc,
             Forall (fun kv : pykey * pyval => is_int (snd kv)) acc ->
             Forall (fun kv : pykey * pyval => is_int (snd kv))
                    (fold_left (fun d kv => Dict.set (fst kv) (snd kv) d)
                               (items_of_pairs pairs) acc)).
  { induction pairs as [| [p t] r IH]; intros acc Fa; simpl; auto.
    apply IH. now apply set_keeps_ints. }
  apply G. constructor.
Qed.

(** [obtain_token] on a serialized token, in full. *)
Lemma obtain_token_pairs_run (w : World) (tk : Dict.t pyval)
  (pairs : list (Z * Z)) :
  token (self w) = Some tk ->
  obtain_token (wire_of_pairs pairs) w
  = (Ret tt,
     mkWorld (mkLock (owner_id (self w))
                     (clock_after (Dict.of_items (items_of_pairs pairs))
                                  (time (self w) + 1))
                     (Some (merged (Dict.of_items (items_of_pairs pairs)) tk))
                     (request (self w)) TOKEN_PRESENT)
             (peer_list w)
             (trace w ++ [EAcquire; ENotifyAll; ERelease])).
Proof.
  intros Ht.
  destruct (obtain_token_run (wire_of_pairs pairs) w)
    as (l' & E & Hm & _).
  rewrite unprepare_wire_of_pairs in Hm. destruct Hm as (o & _ & El).
  unfold Dict.items, obtain_start in El.
  rewrite <- (app_nil_r (Dict.of_items (items_of_pairs pairs))) in El at 1.
  rewrite (obtain_loop_ints (Dict.of_items (items_of_pairs pairs)) []
             (set_time (time (self w) + 1) (self w)) _ _ tk Ht
             (ints_of_pairs pairs)) in El.
  simpl in El. injection El as _ El. subst l'. exact E.
Qed.

Lemma set_same_value {V} (k : pykey) (v : V) (d : Dict.t V) :
  Dict.get k d = Some v -> Dict.set k v d = d.
Proof.
  induction d as [| [k0 v0] r IH]; simpl; [discriminate |].
  destruct (key_eqb k k0) eqn:E; intros H.
  - now inversion H.
  - now rewrite IH.
Qed.

Lemma merged_again (items : list (pykey * pyval)) (d : Dict.t pyval) :
  (forall k v, In (k, v) items -> Dict.get k d = Some v) ->
  merged items d = d.
Proof.
  induction items as [| [k v] r IH]; intros H; simpl; [reflexivity |].
  rewrite set_same_value by (apply H; now left).
  apply IH. intros k' v' Hin. apply H. now right.
Qed.

Lemma clock_after_above (items : list (pykey * pyval)) (c : Z) :
  (forall k z, In (k, VInt z) items -> z < c) ->
  clock_after items c = c.
Proof.
  induction items as [| [k v] r IH]; intros H; simpl; [reflexivity |].
  destruct v; try (apply IH; intros k' z' Hin; apply (H k'); now right).
  pose proof (H k z (or_introl eq_refl)).
  replace (Z.max c (z + 1)) with c by lia.
  apply IH. intros k' z' Hin. apply (H k'). now right.
Qed.

(** X23.  Receiving the same serialized token a second time changes
    nothing but the clock, which advances by exactly one: the token
    mapping, the state [TOKEN_PRESENT] and [request] are as after the
    first time. *)
Theorem obtain_token_twice (w : World) (tk : Dict.t pyval)
  (pairs : list (Z * Z)) :
  token (self w) = Some tk ->
  obtain_token (wire_of_pairs pairs)
               (snd (obtain_token (wire_of_pairs pairs) w))
  = (Ret tt,
     mkWorld (set_time
                (time (self (snd (obtain_token (wire_of_pairs pairs) w))) + 1)
                (self (snd (obtain_token (wire_of_pairs pairs) w))))
             (peer_list w)
             (trace w ++ [EAcquire; ENotifyAll; ERelease;
                          EAcquire; ENotifyAll; ERelease])).
Proof.
  intros Ht.
  rewrite (obtain_token_pairs_run w tk pairs Ht). cbn [snd].
  set (msg := Dict.of_items (items_of_pairs pairs)).
  erewrite (obtain_token_pairs_run _ (merged msg tk) pairs);
    [| reflexivity].
  fold msg. cbn [self peer_list trace owner_id time request set_time token
                 state].
  assert (W : Dict.wf msg) by apply DictFacts.wf_of_items.
  rewrite merged_again
    by (intros k v Hin; now apply merged_get_in).
  rewrite clock_after_above.
  - rewrite <- app_assoc. reflexivity.
  - intros k z Hin.
    pose proof (clock_after_gt msg (time (self w) + 1) k z Hin). lia.
Qed.

Lemma obtain_token_twice_witness :
  obtain_token (wire_of_pairs [(1, 4); (2, 7)])
               (snd (obtain_token (wire_of_pairs [(1, 4); (2, 7)])
                                  ScenarioRepeatedRequest.asked_once))
  = (Ret tt,
     mkWorld (mkLock 1 9 (Some [(KInt 1, VInt 4); (KInt 2, VInt 7)])
                     [(KInt 1, 0); (KInt 2, 1)] TOKEN_PRESENT)
             (mkPeerList [2] 0)
             [EAcquire; ERelease; EAcquire; ERelease;
              EAcquire; ENotifyAll; ERelease;
              EAcquire; ENotifyAll; ERelease]).
Proof.
  apply (obtain_token_twice ScenarioRepeatedRequest.asked_once
           [(KInt 1, VInt 0); (KInt 2, VInt 0)] [(1, 4); (2, 7)]).
  reflexivity.
Defined.

Lemma obtain_loop_no_token (items : list (pykey * pyval)) (w : World) :
  token (self w) = None ->
  exists o, o <> Blocked /\ obtain_loop items w = (o, w).
Proof.
  intros Ht. destruct items as [| [k v] r].
  - exists (Ret tt). split; [discriminate | reflexivity].
  - exists (Raise TypeError). split; [discriminate |].
    simpl. unfold_prims. now rewrite Ht.
Qed.

(** X24.  [obtain_token] never creates the token mapping: on a lock that
    has not been initialized it returns, for every payload, in state
    [TOKEN_PRESENT] with the clock advanced by one and [token] still
    [None]. *)
Theorem obtain_token_uninitialized (wire : pyval) (w : World) :
  token (self w) = None ->
  obtain_token wire w
  = (Ret tt,
     mkWorld (mkLock (owner_id (self w)) (time (self w) + 1) None
                     (request (self w)) TOKEN_PRESENT)
             (peer_list w)
             (trace w ++ [EAcquire; ENotifyAll; ERelease])).
Proof.
  intros Ht.
  destruct (obtain_token_run wire w) as (l' & E & Hm & _).
  assert (El : l' = self (obtain_start w)).
  { destruct (_unprepare wire) as [e | msg]; [exact Hm |].
    destruct Hm as (o & _ & El).
    destruct (obtain_loop_no_token (Dict.items msg) (obtain_start w))
      as (o' & _ & El'); [exact Ht |].
    rewrite El' in El. destruct w as [l pl tr]. simpl in El.
    now inversion El. }
  rewrite E, El. simpl. unfold set_state, set_time. simpl.
  now rewrite Ht.
Qed.

Lemma obtain_token_uninitialized_witness :
  obtain_token (wire_of_pairs [(1, 4); (2, 7)]) (new_world 1 [2])
  = (Ret tt,
     mkWorld (mkLock 1 1 None [] TOKEN_PRESENT) (mkPeerList [2] 0)
             [EAcquire; ENotifyAll; ERelease]).
Proof.
  apply (obtain_token_uninitialized (wire_of_pairs [(1, 4); (2, 7)])
           (new_world 1 [2])).
  reflexivity.
Defined.

(** X25.  A payload that [dict(...)] rejects still hands the token over:
    [obtain_token] returns in state [TOKEN_PRESENT] with the clock
    advanced by one, and the token mapping and [request] are
    untouched. *)
Theorem obtain_token_undecodable (wire : pyval) (w : World) (e : exn) :
  _unprepare wire = inl e ->
  obtain_token wire w
  = (Ret tt,
     mkWorld (mkLock (owner_id (self w)) (time (self w) + 1)
                     (token (self w)) (request (self w)) TOKEN_PRESENT)
             (peer_list w)
             (trace w ++ [EAcquire; ENotifyAll; ERelease])).
Proof.
  intros Eu.
  destruct (obtain_token_run wire w) as (l' & E & Hm & _).
  rewrite Eu in Hm. rewrite E, Hm. reflexivity.
Qed.

Lemma obtain_token_undecodable_witness :
  obtain_token (VList [VList [VInt 1; VInt 4]; VInt 2])
               ScenarioRepeatedRequest.joined
  = (Ret tt,
     mkWorld (mkLock 1 1 (Some [(KInt 1, VInt 0); (KInt 2, VInt 0)])
                     [(KInt 1, 0); (KInt 2, 0)] TOKEN_PRESENT)
             (mkPeerList [2] 0)
             [EAcquire; ERelease; EAcquire; ENotifyAll; ERelease]).
Proof.
  apply (obtain_token_undecodable (VList [VList [VInt 1; VInt 4]; VInt 2])
           ScenarioRepeatedRequest.joined TypeError).
  reflexivity.
Defined.

(** ** The wire form, continued *)

Lemma merged_app (a b : list (pykey * pyval)) (d : Dict.t pyval) :
  merged (a ++ b) d = merged b (merged a d).
Proof. unfold merged. apply fold_left_app. Qed.

(** X26.  [_unprepare] of a sequence of two-element entries with
    hashable keys always succeeds, and when a key occurs more than once
    the last entry wins; a key that occurs in no entry is not in the
    result. *)
Theorem unprepare_last_entry_wins (items : list (pykey * pyval)) :
  exists d,
    _unprepare (wire_of items) = inr d /\
    (forall pre k v post,
        items = pre ++ (k, v) :: post ->
        ~ In k (Dict.keys post) ->
        Dict.get k d = Some v) /\
    (forall k, ~ In k (Dict.keys items) -> Dict.get k d = None).
Proof.
  exists (merged items Dict.empty). split; [| split].
  - unfold _unprepare, py_dict, py_iter, wire_of.
    apply dict_update_items.
  - intros pre k v post -> N.
    rewrite merged_app. simpl.
    rewrite merged_get_other by exact N.
    apply DictFacts.get_set_same.
  - intros k N. now rewrite merged_get_other.
Qed.

Lemma unprepare_last_entry_wins_witness :
  exists d,
    _unprepare (VList [VList [VInt 1; VInt 5]; VList [VInt 2; VInt 0];
                       VList [VInt 1; VInt 7]])
    = inr d /\
    Dict.get (KInt 1) d = Some (VInt 7) /\
    Dict.get (KInt 3) d = None.
Proof.
  destruct (unprepare_last_entry_wins
              [(KInt 1, VInt 5); (KInt 2, VInt 0); (KInt 1, VInt 7)])
    as (d & E & Hlast & Hnone).
  exists d. split; [exact E |]. split.
  - apply (Hlast [(KInt 1, VInt 5); (KInt 2, VInt 0)] (KInt 1) (VInt 7) []).
    + reflexivity.
    + intros [].
  - apply Hnone. simpl. intuition discriminate.
Defined.

(** * Properties of the stub *)

(** X27.  A remote call returns a value exactly when the exchange of
    frames succeeded and the response is an object with a member
    ["result"], whose value is returned, whether or not the object also
    has a member ["error"]; an object with neither member raises
    [CommunicationError]. *)
Theorem rmi_returns_result
  (transport : string -> list pyval -> Orb.error + pyval)
  (method : string) (args : list pyval) :
  (forall v,
      Orb._rmi transport method args = inr v <->
      exists o,
        transport method args = inr (VObj o) /\
        Dict.get (KStr "result") (obj_dict o) = Some v) /\
  (forall o,
      transport method args = inr (VObj o) ->
      Dict.get (KStr "result") (obj_dict o) = None ->
      Dict.get (KStr "error") (obj_dict o) = None ->
      Orb._rmi transport method args
      = inl (Orb.CommunicationError
               "CommunicationError"
               (VList [VStr "Something went wrong with the communication"]))).
Proof.
  split.
  - intros v. unfold Orb._rmi.
    destruct (transport method args) as [e | response].
    + split; [discriminate | intros (o & E & _); discriminate].
    + split.
      * intros H. unfold Orb.handle_server_response in H.
        destruct response as [| z | s | l | o]; simpl in H;
          try discriminate.
        -- destruct (Orb.contains "result" s); simpl in H;
             [discriminate |].
           destruct (Orb.contains "error" s); discriminate.
        -- match type of H with
           | context [existsb ?f l] => destruct (existsb f l)
           end; simpl in H; [discriminate |].
           match type of H with
           | context [existsb ?f l] => destruct (existsb f l)
           end; discriminate.
        -- exists o. split; [reflexivity |].
           unfold Dict.mem in H.
           destruct (Dict.get (KStr "result") (obj_dict o)) as [r |] eqn:Er;
             simpl in H.
           ++ congruence.
           ++ destruct (Dict.get (KStr "error") (obj_dict o)) as [err |];
                simpl in H; [| discriminate].
              destruct (Orb.py_getitem err "name") as [e | name];
                simpl in H; [discriminate |].
              destruct (Orb.new_exception_class name) as [e | ex];
                simpl in H; [discriminate |].
              destruct (Orb.py_getitem err "args"); discriminate.
      * intros (o & E & Hr). inversion E. subst response.
        unfold Orb.handle_server_response. simpl.
        unfold Dict.mem. rewrite Hr. reflexivity.
  - intros o E Hr He. unfold Orb._rmi. rewrite E.
    unfold Orb.handle_server_response. simpl.
    unfold Dict.mem. now rewrite Hr, He.
Qed.

Lemma rmi_returns_result_witness :
  Orb._rmi (fun _ _ => inr (VObj [("result"%string, VInt 3);
                                   ("error"%string, VObj [("name"%string, VStr "KeyError");
                                                   ("args"%string, VList [])])]))
           "obtain_token" []
  = inr (VInt 3) /\
  Orb._rmi (fun _ _ => inr (VObj [("status"%string, VStr "ok")])) "obtain_token" []
  = inl (Orb.CommunicationError
           "CommunicationError"
           (VList [VStr "Something went wrong with the communication"])).
Proof.
  split.
  - apply (proj1 (rmi_returns_result
                    (fun _ _ =>
                       inr (VObj [("result"%string, VInt 3);
                                  ("error"%string,
                                   VObj [("name"%string, VStr "KeyError");
                                         ("args"%string, VList [])])]))
                    "obtain_token" [])).
    eexists. split; [reflexivity | reflexivity].
  - apply (proj2 (rmi_returns_result
                    (fun _ _ => inr (VObj [("status"%string, VStr "ok")]))
                    "obtain_token" [])
             [("status"%string, VStr "ok")]); reflexivity.
Defined.

(** X28.  When the response object has no ["result"] but a well-formed
    ["error"] member, the call raises an exception of the class named by
    the server, carrying the server's arguments. *)
Theorem rmi_raises_remote_error
  (transport : string -> list pyval -> Orb.error + pyval)
  (method : string) (args : list pyval)
  (o err : list (string * pyval)) (name : string) (eargs : pyval) :
  transport method args = inr (VObj o) ->
  Dict.get (KStr "result") (obj_dict o) = None ->
  Dict.get (KStr "error") (obj_dict o) = Some (VObj err) ->
  Dict.get (KStr "name") (obj_dict err) = Some (VStr name) ->
  Orb.has_nul name = false ->
  Dict.get (KStr "args") (obj_dict err) = Some eargs ->
  Orb._rmi transport method args = inl (Orb.Remote name eargs).
Proof.
  intros E Hr He Hn Hz Ha. unfold Orb._rmi. rewrite E.
  unfold Orb.handle_server_response. simpl.
  unfold Dict.mem. rewrite Hr, He. simpl. rewrite Hn. simpl.
  rewrite Hz. simpl. now rewrite Ha.
Qed.

Lemma rmi_raises_remote_error_witness :
  Orb._rmi (fun _ _ => inr (VObj [("error"%string,
                                    VObj [("name"%string, VStr "KeyError");
                                          ("args"%string, VList [VInt 7])])]))
           "request_token" [VInt 3; VInt 7]
  = inl (Orb.Remote "KeyError" (VList [VInt 7])).
Proof.
  apply (rmi_raises_remote_error
           (fun _ _ => inr (VObj [("error"%string,
                                   VObj [("name"%string, VStr "KeyError");
                                         ("args"%string, VList [VInt 7])])]))
           "request_token" [VInt 3; VInt 7]
           [("error"%string, VObj [("name"%string, VStr "KeyError");
                            ("args"%string, VList [VInt 7])])]
           [("name"%string, VStr "KeyError"); ("args"%string, VList [VInt 7])]
           "KeyError" (VList [VInt 7]));
    reflexivity.
Defined.
